(** * Herald tunnel entry ([herald/tunnel/server.py]), the beans
      ([herald/beans.py]) and the core directory ([herald/directory.py]):
      a shallow embedding and its properties.

    The Python code is embedded as state-passing functions over the fields of
    a [SocketTunnelIn] instance.  Everything the instance does to the outside
    (sockets, the Herald core service, the logger, the [beans] module) is
    recorded in a trace of events; what the outside answers is read from an
    environment record.  Python exceptions are explicit results, and the
    state reached when an exception escapes is kept, as in Python. *)

From stdpp Require Import gmap strings list fin_maps.
From Stdlib Require Import NArith ZArith Lia.
From Stdlib.Strings Require Import Byte.

Open Scope Z_scope.

Set Warnings "-register-all,-clear-no-such-hyp".

(** ** Python values *)

(** The values that travel in message contents and in the instance fields. *)
Inductive pyval :=
| PNone
| PBool (b : bool)
| PInt (z : Z)
| PStr (s : string)
| PDict (d : gmap string pyval).

(** A [dict] with string keys. *)
Abbreviation dict := (gmap string pyval).

(** Truth value of an object, as tested by [if] and [not]. *)
Definition truthy (v : pyval) : bool :=
  match v with
  | PNone => false
  | PBool b => b
  | PInt z => negb (z =? 0)
  | PStr s => negb (String.eqb s EmptyString)
  | PDict d => negb (bool_decide (d = ∅))
  end.

(** The exceptions that the modelled code raises or catches.  [socket_error]
    stands for [socket.error] and [IOError], which every socket operation
    raises; [socket_gaierror] is the resolver's error, and [UnicodeError]
    is what the resolver raises for a host name that it cannot encode. *)
Inductive exn :=
| TypeError (msg : string)
| NameError (name : string)
| KeyError
| socket_error (msg : string)
| socket_gaierror
| HeraldException
| binascii_Error
| UnicodeError (msg : string).

Inductive result (A : Type) :=
| Return (a : A)
| Raise (e : exn).
Arguments Return {A} a.
Arguments Raise {A} e.

(** ** [base64] and [pelix.utilities.to_str] (library code used by the tunnel) *)

Module base64.

Definition alphabet : list byte :=
  String.list_byte_of_string
    "ABCDEFGHIJKLMNOPQRSTUVWXYZabcdefghijklmnopqrstuvwxyz0123456789+/".

Definition PAD : byte := "="%byte.

(** 6-bit value to its character. *)
Definition table_b2a (n : N) : byte := nth (N.to_nat n) alphabet PAD.

Fixpoint index_of (c : byte) (l : list byte) (i : N) : option N :=
  match l with
  | [] => None
  | x :: l' => if Byte.eqb c x then Some i else index_of c l' (N.succ i)
  end.

(** Character to its 6-bit value; [None] outside the alphabet. *)
Definition table_a2b (c : byte) : option N := index_of c alphabet 0%N.

Definition byte_of_N (n : N) : byte :=
  match Byte.of_N (n mod 256) with Some b => b | None => x00 end.

(** [base64.b64encode]: three bytes become four characters, the last group
    is padded with [=]. *)
Fixpoint b64encode (s : list byte) : list byte :=
  match s with
  | [] => []
  | [b1] =>
      let n1 := Byte.to_N b1 in
      [table_b2a (n1 / 4); table_b2a ((n1 mod 4) * 16); PAD; PAD]
  | [b1; b2] =>
      let n1 := Byte.to_N b1 in
      let n2 := Byte.to_N b2 in
      [table_b2a (n1 / 4); table_b2a ((n1 mod 4) * 16 + n2 / 16);
       table_b2a ((n2 mod 16) * 4); PAD]
  | b1 :: b2 :: b3 :: rest =>
      let n1 := Byte.to_N b1 in
      let n2 := Byte.to_N b2 in
      let n3 := Byte.to_N b3 in
      table_b2a (n1 / 4) :: table_b2a ((n1 mod 4) * 16 + n2 / 16)
      :: table_b2a ((n2 mod 16) * 4 + n3 / 64) :: table_b2a (n3 mod 64)
      :: b64encode rest
  end%N.

(** [base64.b64decode] on the canonical form (groups of four characters,
    padding only in the last group), which is the form that [b64encode]
    gives.  [None] stands for an input outside that form, on which the
    call site raises [binascii.Error]; the library is more lenient there
    (it discards the characters outside of the alphabet and stops at the
    padding), so that the properties below use the decoder on encoded
    text only. *)
Fixpoint b64decode (s : list byte) : option (list byte) :=
  match s with
  | [] => Some []
  | c1 :: c2 :: c3 :: c4 :: rest =>
      match table_a2b c1, table_a2b c2 with
      | Some s1, Some s2 =>
          let b1 := byte_of_N (s1 * 4 + s2 / 16) in
          if Byte.eqb c4 PAD then
            match rest with
            | [] =>
                if Byte.eqb c3 PAD then Some [b1]
                else
                  match table_a2b c3 with
                  | Some s3 =>
                      Some [b1; byte_of_N ((s2 mod 16) * 16 + s3 / 4)]
                  | None => None
                  end
            | _ :: _ => None
            end
          else
            match table_a2b c3, table_a2b c4, b64decode rest with
            | Some s3, Some s4, Some tl =>
                Some (b1 :: byte_of_N ((s2 mod 16) * 16 + s3 / 4)
                         :: byte_of_N ((s3 mod 4) * 64 + s4) :: tl)
            | _, _, _ => None
            end
      | _, _ => None
      end
  | _ => None
  end%N.

End base64.

(** [to_str] of Pelix turns the ASCII bytes of an encoding into text. *)
Definition to_str (data : list byte) : string := String.string_of_list_byte data.

(** The reverse view, taken by [b64decode] when it is given text. *)
Definition to_bytes (text : string) : list byte := String.list_byte_of_string text.

(** ** [herald/beans.py]: the [Message] bean *)

Module beans.

(** The fields of a message that the tunnel and its peer read; the
    headers that [__init__] also fills in are left out. *)
Record Message := {
  _subject : pyval;
  _content : pyval;
}.

(** The names bound at module level in [beans.py] when its text has been
    run to the end: its imports and its classes.  (As it is given, the
    text does not get there: line 517 is indented by three spaces and the
    body of [Message] names an undefined [Property]; fewer names bound
    only adds to what cannot be built.) *)
Definition module_globals : list string :=
  ["functools"; "threading"; "time"; "uuid"; "json";
   "Peer"; "Target"; "RawAccess"; "DelayedNotification";
   "Message"; "MessageReceived"].

(** The builtins that the body of [__init__] uses. *)
Definition builtins : list string := ["str"; "int"].

(** The positional parameters of [__init__] after [self]; the first three
    have no default. *)
Definition parameters : list string :=
  ["target_id"; "target_type"; "subject"; "content";
   "sender_uid"; "send_mode"; "replies_to"].
Definition required : nat := 3.

(** The names read by the body of [__init__], in evaluation order, that
    are not attributes of [self]; in an assignment to a subscript the
    right-hand side is evaluated before the key. *)
Definition names_read : list string :=
  ["HERALD_SPECIFICATION_VERSION";
   "str"; "uuid"; "MESSAGE_HEADER_UID";
   "int"; "time"; "MESSAGE_HEADER_TIMESTAMP";
   "sender_uid"; "MESSAGE_HEADER_SENDER_UID";
   "send_mode"; "MESSAGE_HEADER_SEND_MODE";
   "replies_to"; "MESSAGE_HEADER_REPLIES_TO";
   "target_type"; "target";
   "subject"; "content"].

Section Init.
(** The module-level names in scope when the body runs. *)
Variable globals : list string.

(** Reading a name that is neither a local, a module global nor a
    builtin raises [NameError]. *)
Definition load_name (name : string) : result unit :=
  if bool_decide (name ∈ ("self" :: parameters) ++ globals ++ builtins)
  then Return tt else Raise (NameError name).

Fixpoint load_names (names : list string) : result unit :=
  match names with
  | [] => Return tt
  | n :: rest =>
      match load_name n with
      | Return _ => load_names rest
      | Raise e => Raise e
      end
  end.

(** A call of the class with positional arguments [args]: bind them to
    the parameters, then run the body. *)
Definition __init__ (args : list pyval) : result Message :=
  if (length args <? required)%nat then
    Raise (TypeError "__init__() missing required positional argument")
  else if (length parameters <? length args)%nat then
    Raise (TypeError "__init__() takes from 4 to 8 positional arguments")
  else
    match load_names names_read with
    | Raise e => Raise e
    | Return _ =>
        Return {| _subject := nth 2 args PNone;
                  _content := nth 3 args PNone |}
    end.
End Init.

(** [beans.Message(subject, content)], the call that [server.py] makes,
    resolved in the module as it is. *)
Definition Message_call (subject : string) (content : dict) : result Message :=
  __init__ module_globals [PStr subject; PDict content].

End beans.

(** ** [herald/tunnel/server.py]: the world around a [SocketTunnelIn] *)

(** A socket is known by the identity of its object. *)
Abbreviation sock := nat.

(** A peer bean, known by its UID. *)
Abbreviation Peer := string.

(** Read buffer size *)
Definition BUFFER_SIZE : nat := 4096.

Inductive sock_type := SOCK_STREAM | SOCK_DGRAM.

(** One entry of [socket.getaddrinfo]: [(family, socktype, proto, _, sockaddr)]. *)
Record addrinfo := {
  ai_family : Z;
  ai_socktype : sock_type;
  ai_proto : Z;
  ai_sockaddr : string * Z;
}.

(** The four calls that [setup] makes for a candidate, in order. *)
Inductive bind_step := do_socket | do_setsockopt | do_bind | do_listen.

Inductive loglevel := ERROR | WARNING.

(** What the instance does to the outside, in the order it does it. *)
Inductive event :=
| ev_getaddrinfo (address : string) (port : Z) (type : sock_type)
| ev_socket (family : Z) (socktype : sock_type) (proto : Z)
| ev_setsockopt (s : sock)
| ev_bind (s : sock) (sockaddr : string * Z)
| ev_listen (s : sock) (backlog : Z)
| ev_select (read_socks : list sock)
| ev_accept (server_sock : sock)
| ev_recv (s : sock) (bufsize : nat)
| ev_shutdown (s : sock)
| ev_close (s : sock)
| ev_sock_send (s : sock) (data : list byte)
| ev_Message (subject : string) (content : dict)
| ev_herald_send (peer : option Peer) (msg : beans.Message)
| ev_herald_fire (peer : option Peer) (msg : beans.Message)
| ev_log (level : loglevel) (format : string).

(** What the outside answers during one call of a method. *)
Record Env := {
  (** [socket.getaddrinfo]: the candidates, or the exception that the
      resolver raises *)
  getaddrinfo : string → Z → sock_type → result (list addrinfo);
  (** the first call that raises [socket.error] for a candidate, if any *)
  fails_at : addrinfo → option bind_step;
  (** [select.select]: the sockets that are ready among those given *)
  select_ready : list sock → list sock;
  (** whether [accept] raises *)
  accept_raises : sock → bool;
  (** [recv]: the bytes that are waiting, or [None] for [socket.error] *)
  recv_data : sock → option (list byte);
  (** whether [shutdown] raises *)
  shutdown_raises : sock → bool;
  (** whether [send] on a socket raises *)
  sock_send_raises : sock → bool;
  (** [herald.send]: the content of the reply, or [None] for
      [HeraldException] *)
  send_reply : option Peer → beans.Message → option pyval;
  (** whether [herald.fire] raises [HeraldException] *)
  fire_raises : option Peer → beans.Message → bool;
}.

(** The members of a [SocketTunnelIn]; the Herald service and the lock are
    part of the outside. *)
Record SocketTunnelIn := {
  __peer : option Peer;
  __tunnel_uid : pyval;
  __server_socks : list sock;
  __clients_socks : gset sock;
  __next_id : Z;
  __link_sock : gmap Z sock;
  __sock_link : gmap sock Z;
  __running : bool;
}.

(** The instance, the socket objects created so far and the trace. *)
Record World := {
  self : SocketTunnelIn;
  objects : nat;
  trace : list event;
}.

(** [SocketTunnelIn.__init__] *)
Definition SocketTunnelIn__init__ : SocketTunnelIn :=
  {| __peer := None;
     __tunnel_uid := PNone;
     __server_socks := [];
     __clients_socks := ∅;
     __next_id := 0;
     __link_sock := ∅;
     __sock_link := ∅;
     __running := true |}.

Definition initial : World :=
  {| self := SocketTunnelIn__init__; objects := 0; trace := [] |}.

(** Assignments to one member. *)
Definition set_peer (v : option Peer) (t : SocketTunnelIn) : SocketTunnelIn :=
  {| __peer := v; __tunnel_uid := __tunnel_uid t;
     __server_socks := __server_socks t; __clients_socks := __clients_socks t;
     __next_id := __next_id t; __link_sock := __link_sock t;
     __sock_link := __sock_link t; __running := __running t |}.

Definition set_tunnel_uid (v : pyval) (t : SocketTunnelIn) : SocketTunnelIn :=
  {| __peer := __peer t; __tunnel_uid := v;
     __server_socks := __server_socks t; __clients_socks := __clients_socks t;
     __next_id := __next_id t; __link_sock := __link_sock t;
     __sock_link := __sock_link t; __running := __running t |}.

Definition set_server_socks (v : list sock) (t : SocketTunnelIn) : SocketTunnelIn :=
  {| __peer := __peer t; __tunnel_uid := __tunnel_uid t;
     __server_socks := v; __clients_socks := __clients_socks t;
     __next_id := __next_id t; __link_sock := __link_sock t;
     __sock_link := __sock_link t; __running := __running t |}.

Definition set_clients_socks (v : gset sock) (t : SocketTunnelIn) : SocketTunnelIn :=
  {| __peer := __peer t; __tunnel_uid := __tunnel_uid t;
     __server_socks := __server_socks t; __clients_socks := v;
     __next_id := __next_id t; __link_sock := __link_sock t;
     __sock_link := __sock_link t; __running := __running t |}.

Definition set_next_id (v : Z) (t : SocketTunnelIn) : SocketTunnelIn :=
  {| __peer := __peer t; __tunnel_uid := __tunnel_uid t;
     __server_socks := __server_socks t; __clients_socks := __clients_socks t;
     __next_id := v; __link_sock := __link_sock t;
     __sock_link := __sock_link t; __running := __running t |}.

Definition set_link_sock (v : gmap Z sock) (t : SocketTunnelIn) : SocketTunnelIn :=
  {| __peer := __peer t; __tunnel_uid := __tunnel_uid t;
     __server_socks := __server_socks t; __clients_socks := __clients_socks t;
     __next_id := __next_id t; __link_sock := v;
     __sock_link := __sock_link t; __running := __running t |}.

Definition set_sock_link (v : gmap sock Z) (t : SocketTunnelIn) : SocketTunnelIn :=
  {| __peer := __peer t; __tunnel_uid := __tunnel_uid t;
     __server_socks := __server_socks t; __clients_socks := __clients_socks t;
     __next_id := __next_id t; __link_sock := __link_sock t;
     __sock_link := v; __running := __running t |}.

Definition set_running (v : bool) (t : SocketTunnelIn) : SocketTunnelIn :=
  {| __peer := __peer t; __tunnel_uid := __tunnel_uid t;
     __server_socks := __server_socks t; __clients_socks := __clients_socks t;
     __next_id := __next_id t; __link_sock := __link_sock t;
     __sock_link := __sock_link t; __running := v |}.

(** ** Computations: state, trace and exceptions *)

Definition M (A : Type) : Type := World → result A * World.

Definition ret {A} (a : A) : M A := λ w, (Return a, w).

Definition bind {A B} (m : M A) (f : A → M B) : M B :=
  λ w, match m w with
       | (Return a, w') => f a w'
       | (Raise e, w') => (Raise e, w')
       end.

Declare Scope py_scope.
Delimit Scope py_scope with py.
Notation "x <- m ;; k" := (bind m (λ x, k))
  (at level 100, m at next level, right associativity) : py_scope.
Notation "m ;;; k" := (bind m (λ _, k))
  (at level 100, right associativity) : py_scope.
Open Scope py_scope.

Definition raise {A} (e : exn) : M A := λ w, (Raise e, w).

Definition get : M SocketTunnelIn := λ w, (Return (self w), w).

Definition modify (f : SocketTunnelIn → SocketTunnelIn) : M unit :=
  λ w, (Return tt,
        {| self := f (self w); objects := objects w; trace := trace w |}).

Definition emit (e : event) : M unit :=
  λ w, (Return tt,
        {| self := self w; objects := objects w; trace := trace w ++ [e] |}).

(** A new socket object: distinct from every object created before. *)
Definition new_object : M sock :=
  λ w, (Return (objects w),
        {| self := self w; objects := S (objects w); trace := trace w |}).

(** [try: body / except <those e with handler e = Some h>: h] *)
Definition try_except {A} (body : M A) (handler : exn → option (M A)) : M A :=
  λ w, match body w with
       | (Return a, w') => (Return a, w')
       | (Raise e, w') =>
           match handler e with
           | Some h => h w'
           | None => (Raise e, w')
           end
       end.

(** [try: body / except ...: h / else: orelse] *)
Definition try_except_else {A B} (body : M A) (handler : exn → option (M B))
    (orelse : A → M B) : M B :=
  λ w, match body w with
       | (Return a, w') => orelse a w'
       | (Raise e, w') =>
           match handler e with
           | Some h => h w'
           | None => (Raise e, w')
           end
       end.

(** [try: body / finally: final] *)
Definition try_finally {A} (body : M A) (final : M unit) : M A :=
  λ w, match body w with
       | (r, w') =>
           match final w' with
           | (Return _, w'') => (r, w'')
           | (Raise e, w'') => (Raise e, w'')
           end
       end.

(** [for x in l: body x] *)
Fixpoint for_each {X} (l : list X) (body : X → M unit) : M unit :=
  match l with
  | [] => ret tt
  | x :: rest => body x ;;; for_each rest body
  end.

(** [with self.__lock: body]: the body is one critical section. *)
Definition with_lock {A} (body : M A) : M A := body.

(** The clauses [except IOError], [except socket.error], [except
    HeraldException] and [except KeyError]. *)
Definition except_IOError {A} (h : M A) (e : exn) : option (M A) :=
  match e with
  | socket_error _ | socket_gaierror => Some h
  | _ => None
  end.

Definition except_HeraldException {A} (h : M A) (e : exn) : option (M A) :=
  match e with HeraldException => Some h | _ => None end.

Definition except_KeyError {A} (h : M A) (e : exn) : option (M A) :=
  match e with KeyError => Some h | _ => None end.

(** [d[key]] on an object. *)
Definition getitem (v : pyval) (key : string) : M pyval :=
  match v with
  | PDict d =>
      match d !! key with
      | Some x => ret x
      | None => raise KeyError
      end
  | PStr _ => raise (TypeError "string indices must be integers")
  | _ => raise (TypeError "object is not subscriptable")
  end.

Definition logger_error (format : string) : M unit := emit (ev_log ERROR format).
Definition logger_warning (format : string) : M unit := emit (ev_log WARNING format).

(** ** The methods of [SocketTunnelIn] *)

Section Methods.

(** What the name [beans.Message] is bound to when it is called with a
    subject and a content. *)
Variable Message : string → dict → result beans.Message.

(** The answers of the outside during the call. *)
Variable env : Env.

(** [beans.Message(subject, content)] *)
Definition new_Message (subject : string) (content : dict) : M beans.Message :=
  emit (ev_Message subject content) ;;;
  match Message subject content with
  | Return msg => ret msg
  | Raise e => raise e
  end.

(** [sock.shutdown(socket.SHUT_RDWR)] *)
Definition sock_shutdown (s : sock) : M unit :=
  emit (ev_shutdown s) ;;;
  if shutdown_raises env s then raise (socket_error "shutdown") else ret tt.

(** [sock.close()] *)
Definition sock_close (s : sock) : M unit := emit (ev_close s).

(** [server_sock.accept()]: the client socket is a new object. *)
Definition sock_accept (server_sock : sock) : M sock :=
  emit (ev_accept server_sock) ;;;
  if accept_raises env server_sock then raise (socket_error "accept")
  else new_object.

(** [in_sock.recv(bufsize)]: at most [bufsize] of the waiting bytes. *)
Definition sock_recv (s : sock) (bufsize : nat) : M (list byte) :=
  emit (ev_recv s bufsize) ;;;
  match recv_data env s with
  | Some data => ret (take bufsize data)
  | None => raise (socket_error "recv")
  end.

(** [sock.send(data)] *)
Definition sock_send (s : sock) (data : list byte) : M unit :=
  emit (ev_sock_send s data) ;;;
  if sock_send_raises env s then raise (socket_error "send") else ret tt.

(** [self.__herald.send(peer, msg).content] *)
Definition herald_send (peer : option Peer) (msg : beans.Message) : M pyval :=
  emit (ev_herald_send peer msg) ;;;
  match send_reply env peer msg with
  | Some content => ret content
  | None => raise HeraldException
  end.

(** [self.__herald.fire(peer, msg)] *)
Definition herald_fire (peer : option Peer) (msg : beans.Message) : M unit :=
  emit (ev_herald_fire peer msg) ;;;
  if fire_raises env peer msg then raise HeraldException else ret tt.

(** [try: sock.shutdown(..) / except IOError: pass / finally: sock.close()] *)
Definition shutdown_finally_close (s : sock) : M unit :=
  try_finally (try_except (sock_shutdown s) (except_IOError (ret tt)))
              (sock_close s).

(** [try: sock.shutdown(..) / except IOError: pass / else: sock.close()] *)
Definition shutdown_else_close (s : sock) : M unit :=
  try_except_else (sock_shutdown s) (except_IOError (ret tt))
                  (λ _, sock_close s).

(** One candidate of [setup]: the body of the [try] (lines 121-124). *)
Definition create_and_bind (info : addrinfo) : M sock :=
  emit (ev_socket (ai_family info) (ai_socktype info) (ai_proto info)) ;;;
  match fails_at env info with
  | Some do_socket => raise (socket_error "socket")
  | failure =>
      s <- new_object ;;
      emit (ev_setsockopt s) ;;;
      match failure with
      | Some do_setsockopt => raise (socket_error "setsockopt")
      | _ =>
          emit (ev_bind s (ai_sockaddr info)) ;;;
          match failure with
          | Some do_bind => raise (socket_error "bind")
          | _ =>
              emit (ev_listen s 10) ;;;
              match failure with
              | Some do_listen => raise (socket_error "listen")
              | _ => ret s
              end
          end
      end
  end.

(** The [try / except socket.error / else] of [setup] for one candidate. *)
Definition setup_candidate (info : addrinfo) : M unit :=
  try_except_else (create_and_bind info)
    (except_IOError (logger_error "Error creating socket: %s"))
    (λ s, modify (λ t, set_server_socks (__server_socks t ++ [s]) t)).

(** [setup(address, port, sock_type)] *)
Definition setup (address : string) (port : Z) (sock_type : sock_type) : M bool :=
  emit (ev_getaddrinfo address port sock_type) ;;;
  match getaddrinfo env address port sock_type with
  | Raise e => raise e
  | Return addr_info =>
      for_each addr_info setup_candidate ;;;
      t <- get ;;
      match __server_socks t with
      | [] => raise (socket_error "No server socket have been bound")
      | _ :: _ => ret true
      end
  end.

(** [link(tunnel_uid, out_peer)] *)
Definition link (tunnel_uid : pyval) (out_peer : option Peer) : M unit :=
  modify (set_tunnel_uid tunnel_uid) ;;;
  modify (set_peer out_peer).

(** The critical section of [_on_close] (lines 286-296): [None] is the
    early [return] for an unknown socket. *)
Definition unregister (clt_sock : sock) : M (option Z) :=
  with_lock (
    t <- get ;;
    if bool_decide (clt_sock ∈ __clients_socks t) then
      modify (λ t, set_clients_socks (__clients_socks t ∖ {[clt_sock]}) t) ;;;
      match __sock_link t !! clt_sock with
      | None => raise KeyError
      | Some link_id =>
          modify (λ t, set_sock_link (delete clt_sock (__sock_link t)) t) ;;;
          t <- get ;;
          match __link_sock t !! link_id with
          | None => raise KeyError
          | Some _ =>
              modify (λ t, set_link_sock (delete link_id (__link_sock t)) t) ;;;
              ret (Some link_id)
          end
      end
    else ret None).

(** [_on_close(clt_sock)] *)
Definition _on_close (clt_sock : sock) : M unit :=
  r <- unregister clt_sock ;;
  match r with
  | None => ret tt
  | Some link_id =>
      shutdown_finally_close clt_sock ;;;
      t <- get ;;
      msg <- new_Message "herald/tunnel/close_link"
               (<["tunnel" := __tunnel_uid t]>
                  (<["link_id" := PInt link_id]> ∅)) ;;
      try_except (herald_fire (__peer t) msg)
        (except_HeraldException (logger_error "Error closing link: %s"))
  end.

(** [# Close server sockets] (lines 153-161) *)
Definition close_server_sockets : M unit :=
  t <- get ;;
  for_each (__server_socks t) shutdown_finally_close ;;;
  modify (set_server_socks []).

(** [# Close client sockets] (lines 163-166) *)
Definition close_client_sockets : M unit :=
  t <- get ;;
  for_each (elements (__clients_socks t)) _on_close ;;;
  modify (set_clients_socks ∅).

(** The [close] message to the remote peer (lines 168-171) *)
Definition send_close_message (send_close : bool) : M unit :=
  t <- get ;;
  match send_close, __peer t with
  | true, Some _ =>
      msg <- new_Message "herald/tunnel/close"
               (<["tunnel" := __tunnel_uid t]> ∅) ;;
      herald_fire (__peer t) msg
  | _, _ => ret tt
  end.

(** [close(send_close)] *)
Definition close (send_close : bool) : M unit :=
  modify (set_running false) ;;;
  close_server_sockets ;;;
  close_client_sockets ;;;
  send_close_message send_close ;;;
  modify (set_tunnel_uid PNone) ;;;
  modify (set_peer None).

(** [send(link_id, data)] *)
Definition send (link_id : Z) (data : string) : M unit :=
  t <- get ;;
  match __link_sock t !! link_id with
  | None => logger_error "No socket associated to link %s"
  | Some s =>
      match base64.b64decode (to_bytes data) with
      | Some decoded => sock_send s decoded
      | None => raise binascii_Error
      end
  end.

(** The first critical section of [_on_accept] (lines 238-241). *)
Definition allocate : M Z :=
  with_lock (
    t <- get ;;
    modify (set_next_id (__next_id t + 1)) ;;;
    ret (__next_id t)).

(** The second critical section of [_on_accept] (lines 272-278). *)
Definition register (link_id : Z) (clt_sock : sock) : M unit :=
  with_lock (
    modify (λ t, set_link_sock (<[link_id := clt_sock]> (__link_sock t)) t) ;;;
    modify (λ t, set_sock_link (<[clt_sock := link_id]> (__sock_link t)) t) ;;;
    modify (λ t, set_clients_socks ({[clt_sock]} ∪ __clients_socks t) t)).

(** The [try / except HeraldException] of [_on_accept] (lines 246-270):
    [false] is a [return] from the method. *)
Definition create_link (clt_sock : sock) (msg : beans.Message) : M bool :=
  t <- get ;;
  try_except
    (result <- herald_send (__peer t) msg ;;
     success <- getitem result "success" ;;
     if negb (truthy success) then
       _ <- getitem result "message" ;;
       logger_error "Error creating remote link: %s" ;;;
       shutdown_finally_close clt_sock ;;;
       ret false
     else ret true)
    (except_HeraldException
       (logger_error "Error creating remote link: %s" ;;;
        shutdown_else_close clt_sock ;;;
        ret false)).

(** [_on_accept(server_sock)] *)
Definition _on_accept (server_sock : sock) : M unit :=
  r <- try_except (clt_sock <- sock_accept server_sock ;; ret (Some clt_sock))
         (except_IOError
            (logger_error "Error accepting client: %s" ;;; ret None)) ;;
  match r with
  | None => ret tt
  | Some clt_sock =>
      link_id <- allocate ;;
      t <- get ;;
      msg <- new_Message "herald/tunnel/create_link"
               (<["tunnel" := __tunnel_uid t]>
                  (<["link_id" := PInt link_id]> ∅)) ;;
      go_on <- create_link clt_sock msg ;;
      if go_on : bool then register link_id clt_sock else ret tt
  end.

(** [_on_recv(clt_sock, data)] *)
Definition _on_recv (clt_sock : sock) (data : list byte) : M unit :=
  t <- get ;;
  match __sock_link t !! clt_sock with
  | None => logger_warning "Unknown client socket"
  | Some link_id =>
      msg <- new_Message "herald/tunnel/data"
               (<["tunnel" := __tunnel_uid t]>
                  (<["link_id" := PInt link_id]>
                     (<["data" := PStr (to_str (base64.b64encode data))]> ∅))) ;;
      try_except (herald_fire (__peer t) msg)
        (except_HeraldException
           (logger_error "Error sending data back to link: %s"))
  end.

(** The body of the loop of [read_once] for one ready socket. *)
Definition dispatch (in_sock : sock) : M unit :=
  t <- get ;;
  if bool_decide (in_sock ∈ __server_socks t) then _on_accept in_sock
  else
    try_except_else (sock_recv in_sock BUFFER_SIZE)
      (except_IOError
         (logger_error "Error reading socket: %s" ;;; _on_close in_sock))
      (λ data,
         match data with
         | [] => _on_close in_sock
         | _ :: _ => _on_recv in_sock data
         end).

(** [read_once()] *)
Definition read_once : M unit :=
  read_socks <- with_lock
      (t <- get ;; ret (__server_socks t ++ elements (__clients_socks t))) ;;
  emit (ev_select read_socks) ;;;
  for_each (select_ready env read_socks) dispatch.

End Methods.

(** ** Sessions: sequences of calls on one instance *)

(** The calls that reach an instance: the public methods and the three
    handlers, which [read_once], [close] and the remote side invoke. *)
Inductive call :=
| call_setup (address : string) (port : Z) (type : sock_type)
| call_link (tunnel_uid : pyval) (out_peer : option Peer)
| call_close (send_close : bool)
| call_send (link_id : Z) (data : string)
| call_read_once
| call_on_accept (server_sock : sock)
| call_on_close (clt_sock : sock)
| call_on_recv (clt_sock : sock) (data : list byte).

Definition perform (Message : string → dict → result beans.Message)
    (env : Env) (c : call) : M unit :=
  match c with
  | call_setup address port type => setup env address port type ;;; ret tt
  | call_link tunnel_uid out_peer => link tunnel_uid out_peer
  | call_close send_close => close Message env send_close
  | call_send link_id data => send env link_id data
  | call_read_once => read_once Message env
  | call_on_accept server_sock => _on_accept Message env server_sock
  | call_on_close clt_sock => _on_close Message env clt_sock
  | call_on_recv clt_sock data => _on_recv Message env clt_sock data
  end.

(** The world after a call, whether it returned or raised. *)
Definition step (Message : string → dict → result beans.Message)
    (w : World) (ec : Env * call) : World :=
  (perform Message ec.1 ec.2 w).2.

Definition run (Message : string → dict → result beans.Message)
    (calls : list (Env * call)) (w : World) : World :=
  foldl (step Message) w calls.

(** ** Vocabulary of the properties *)

(** The two lookups of the link table. *)
Definition lookupByConnection (t : SocketTunnelIn) (c : sock) : option Z :=
  __sock_link t !! c.

Definition lookupById (t : SocketTunnelIn) (i : Z) : option sock :=
  __link_sock t !! i.

(** The two maps are inverse of each other and the polled set is their
    set of connections. *)
Definition LinkTable_inv (t : SocketTunnelIn) : Prop :=
  (∀ c i, lookupByConnection t c = Some i ↔ lookupById t i = Some c) ∧
  (∀ c, c ∈ __clients_socks t ↔ is_Some (lookupByConnection t c)).

(** Ids in the table were allocated, and registered sockets were created. *)
Definition allocated (w : World) : Prop :=
  0 ≤ __next_id (self w) ∧
  (∀ i c, lookupById (self w) i = Some c → 0 ≤ i < __next_id (self w)) ∧
  (∀ c, c ∈ __clients_socks (self w) → (c < objects w)%nat).

Definition well_formed (w : World) : Prop :=
  LinkTable_inv (self w) ∧ allocated w.

(** [t'] has the link table and the counter of [t]. *)
Definition same_table (t t' : SocketTunnelIn) : Prop :=
  __clients_socks t' = __clients_socks t ∧ __next_id t' = __next_id t ∧
  __link_sock t' = __link_sock t ∧ __sock_link t' = __sock_link t.

(** The instance once [register link_id clt_sock] is done. *)
Definition registered (link_id : Z) (clt_sock : sock) (t : SocketTunnelIn)
    : SocketTunnelIn :=
  set_clients_socks ({[clt_sock]} ∪ __clients_socks t)
    (set_sock_link (<[clt_sock := link_id]> (__sock_link t))
       (set_link_sock (<[link_id := clt_sock]> (__link_sock t)) t)).

(** The instance once [unregister clt_sock] has removed link [link_id]. *)
Definition unregistered (link_id : Z) (clt_sock : sock) (t : SocketTunnelIn)
    : SocketTunnelIn :=
  set_link_sock (delete link_id (__link_sock t))
    (set_sock_link (delete clt_sock (__sock_link t))
       (set_clients_socks (__clients_socks t ∖ {[clt_sock]}) t)).

(** The instance after a completed [close]. *)
Definition closed (t : SocketTunnelIn) : Prop :=
  __running t = false ∧ __server_socks t = [] ∧ __clients_socks t = ∅ ∧
  __tunnel_uid t = PNone ∧ __peer t = None.

(** The events of closing the sockets of a list: a shutdown and a close
    for each, in order. *)
Definition closing (socks : list sock) : list event :=
  flat_map (λ s, [ev_shutdown s; ev_close s]) socks.

(** The session after the first three blocks of [close]. *)
Definition emptied (t : SocketTunnelIn) : SocketTunnelIn :=
  set_clients_socks ∅ (set_server_socks [] (set_running false t)).

(** The content of the [close] message. *)
Definition close_content (t : SocketTunnelIn) : dict :=
  <["tunnel" := __tunnel_uid t]> ∅.

(** The error raised by [setup] when nothing was bound. *)
Definition BindError : exn := socket_error "No server socket have been bound".

(** Messages handed to the Herald service. *)
Definition is_herald (e : event) : bool :=
  match e with
  | ev_herald_send _ _ | ev_herald_fire _ _ => true
  | _ => false
  end.

(** Calls on sockets that exist. *)
Definition is_socket_op (e : event) : bool :=
  match e with
  | ev_setsockopt _ | ev_bind _ _ | ev_listen _ _ | ev_accept _
  | ev_recv _ _ | ev_shutdown _ | ev_close _ | ev_sock_send _ _ => true
  | _ => false
  end.

(** The messages handed to Herald and the socket calls of a trace. *)
Definition heralded (tr : list event) : list event := List.filter is_herald tr.

Definition socket_ops (tr : list event) : list event :=
  List.filter is_socket_op tr.

(** Nothing is registered. *)
Definition no_link (t : SocketTunnelIn) : Prop :=
  __clients_socks t = ∅ ∧ __link_sock t = ∅ ∧ __sock_link t = ∅.

(** The events of [w'] that came after those of [w]. *)
Definition events_since (w w' : World) : list event :=
  drop (length (trace w)) (trace w').

(** The link id for which a [create_link] message was asked, if the event
    is such a request. *)
Definition create_link_id (e : event) : option Z :=
  match e with
  | ev_Message subject content =>
      if String.eqb subject "herald/tunnel/create_link" then
        match content !! "link_id" with
        | Some (PInt i) => Some i
        | _ => None
        end
      else None
  | _ => None
  end.

(** The link ids allocated to accepted connections, in acceptance order. *)
Definition requested_link_ids (tr : list event) : list Z :=
  omap create_link_id tr.

(** The ids [0, 1, ..., n - 1]. *)
Definition first_ids (n : Z) : list Z := Z.of_nat <$> seq 0 (Z.to_nat n).

(** The ids asked for so far are those below the counter, in order. *)
Definition sequential (w : World) : Prop :=
  0 ≤ __next_id (self w) ∧
  requested_link_ids (trace w) = first_ids (__next_id (self w)).

(** The payload of a [data] message, decoded. *)
Definition decoded_payload (msg : beans.Message) : option (list byte) :=
  match beans._content msg with
  | PDict d =>
      match d !! "data" with
      | Some (PStr text) => base64.b64decode (to_bytes text)
      | _ => None
      end
  | _ => None
  end.

(** The messages fired, in order. *)
Definition fired (tr : list event) : list beans.Message :=
  omap (λ e, match e with ev_herald_fire _ msg => Some msg | _ => None end) tr.

(** Erasing what depends on the address family and socket type of a
    candidate: what remains is the steps taken. *)
Definition steps_of (e : event) : event :=
  match e with
  | ev_getaddrinfo address port _ => ev_getaddrinfo address port SOCK_STREAM
  | ev_socket _ _ _ => ev_socket 0 SOCK_STREAM 0
  | ev_bind s _ => ev_bind s (EmptyString, 0)
  | e => e
  end.

(** A two-argument constructor that stores what it is given: what the call
    sites of [server.py] expect [beans.Message] to be. *)
Definition Message_expected (subject : string) (content : dict)
    : result beans.Message :=
  Return {| beans._subject := PStr subject; beans._content := PDict content |}.

(** The sockets that the members of the instance refer to. *)
Definition referenced (t : SocketTunnelIn) (s : sock) : Prop :=
  s ∈ __server_socks t ∨ s ∈ __clients_socks t ∨
  is_Some (__sock_link t !! s) ∨ ∃ i, __link_sock t !! i = Some s.

(** The server sockets were made before. *)
Definition made (w : World) : Prop :=
  ∀ s, s ∈ __server_socks (self w) → (s < objects w)%nat.

(** The sockets that the instance refers to were made before. *)
Definition created (w : World) : Prop :=
  ∀ s, referenced (self w) s → (s < objects w)%nat.





(** The content of the [data] message for a chunk read on a link. *)
Definition data_content (t : SocketTunnelIn) (link_id : Z) (data : list byte)
    : dict :=
  <["tunnel" := __tunnel_uid t]>
    (<["link_id" := PInt link_id]>
       (<["data" := PStr (to_str (base64.b64encode data))]> ∅)).

(** The events of relaying one chunk when the message can be built. *)
Definition relayed (env : Env) (t : SocketTunnelIn) (link_id : Z)
    (data : list byte) : list event :=
  let content := data_content t link_id data in
  let msg := {| beans._subject := PStr "herald/tunnel/data";
                beans._content := PDict content |} in
  [ev_Message "herald/tunnel/data" content; ev_herald_fire (__peer t) msg] ++
  (if fire_raises env (__peer t) msg
   then [ev_log ERROR "Error sending data back to link: %s"] else []).

(** The events of one candidate of [setup], when its socket would be the
    object [o]. *)
Definition candidate_events (env : Env) (info : addrinfo) (o : sock)
    : list event :=
  let created := ev_socket (ai_family info) (ai_socktype info) (ai_proto info) in
  let failed := ev_log ERROR "Error creating socket: %s" in
  match fails_at env info with
  | Some do_socket => [created; failed]
  | Some do_setsockopt => [created; ev_setsockopt o; failed]
  | Some do_bind =>
      [created; ev_setsockopt o; ev_bind o (ai_sockaddr info); failed]
  | Some do_listen =>
      [created; ev_setsockopt o; ev_bind o (ai_sockaddr info);
       ev_listen o 10; failed]
  | None =>
      [created; ev_setsockopt o; ev_bind o (ai_sockaddr info); ev_listen o 10]
  end.

(** The next object after a candidate: a socket object is created unless
    [socket.socket] itself fails. *)
Definition candidate_next (env : Env) (info : addrinfo) (o : sock) : sock :=
  match fails_at env info with
  | Some do_socket => o
  | _ => S o
  end.

(** The sockets bound, the events and the next object for a list of
    candidates. *)
Fixpoint bound_sockets (env : Env) (infos : list addrinfo) (o : sock)
    : list sock :=
  match infos with
  | [] => []
  | info :: rest =>
      match fails_at env info with
      | None => [o]
      | Some _ => []
      end ++ bound_sockets env rest (candidate_next env info o)
  end.

Fixpoint binding (env : Env) (infos : list addrinfo) (o : sock) : list event :=
  match infos with
  | [] => []
  | info :: rest =>
      candidate_events env info o ++
      binding env rest (candidate_next env info o)
  end.

Fixpoint next_object (env : Env) (infos : list addrinfo) (o : sock) : sock :=
  match infos with
  | [] => o
  | info :: rest => next_object env rest (candidate_next env info o)
  end.

(** The errors logged in a trace. *)
Definition errors_logged (tr : list event) : list event :=
  List.filter (λ e, match e with ev_log ERROR _ => true | _ => false end) tr.

(** No candidate can be bound: [bind] raises for each. *)
Definition env_unbindable : Env :=
  {| getaddrinfo := λ address port type,
       Return [{| ai_family := 2; ai_socktype := type; ai_proto := 0;
                ai_sockaddr := (address, port) |};
             {| ai_family := 10; ai_socktype := type; ai_proto := 0;
                ai_sockaddr := (address, port) |}];
     fails_at := λ _, Some do_bind;
     select_ready := λ read_socks, read_socks;
     accept_raises := λ _, false;
     recv_data := λ _, Some [];
     shutdown_raises := λ _, false;
     sock_send_raises := λ _, false;
     send_reply := λ _ _, None;
     fire_raises := λ _ _, false |}.

(** ** Sample environments and worlds *)

(** Every call of the outside succeeds: one candidate per resolution, the
    peer accepts every link. *)
Definition env_ok : Env :=
  {| getaddrinfo := λ address port type,
       Return [{| ai_family := 2; ai_socktype := type; ai_proto := 0;
                ai_sockaddr := (address, port) |}];
     fails_at := λ _, None;
     select_ready := λ read_socks, read_socks;
     accept_raises := λ _, false;
     recv_data := λ _, Some [];
     shutdown_raises := λ _, false;
     sock_send_raises := λ _, false;
     send_reply := λ _ _, Some (PDict (<["success" := PBool true]> ∅));
     fire_raises := λ _ _, false |}.

(** The peer cannot be reached and the client has already gone: the RPC
    raises [HeraldException] and [shutdown] raises [socket.error]. *)
Definition env_unreachable : Env :=
  {| getaddrinfo := getaddrinfo env_ok;
     fails_at := λ _, None;
     select_ready := λ read_socks, read_socks;
     accept_raises := λ _, false;
     recv_data := λ _, Some [];
     shutdown_raises := λ _, true;
     sock_send_raises := λ _, false;
     send_reply := λ _ _, None;
     fire_raises := λ _ _, true |}.

(** The peer rejects the link, and the client has already gone. *)
Definition env_rejected : Env :=
  {| getaddrinfo := getaddrinfo env_ok;
     fails_at := λ _, None;
     select_ready := λ read_socks, read_socks;
     accept_raises := λ _, false;
     recv_data := λ _, Some [];
     shutdown_raises := λ _, true;
     sock_send_raises := λ _, false;
     send_reply := λ _ _,
       Some (PDict (<["success" := PBool false]>
                      (<["message" := PStr "refused"]> ∅)));
     fire_raises := λ _ _, false |}.

(** The name of the host cannot be resolved. *)
Definition env_unresolved : Env :=
  {| getaddrinfo := λ _ _ _, Raise socket_gaierror;
     fails_at := λ _, None;
     select_ready := λ read_socks, read_socks;
     accept_raises := λ _, false;
     recv_data := λ _, Some [];
     shutdown_raises := λ _, false;
     sock_send_raises := λ _, false;
     send_reply := λ _ _, None;
     fire_raises := λ _ _, false |}.

(** A system on which [listen] is for stream sockets only: on a datagram
    socket it raises [socket.error] (operation not supported).  The
    resolver gives one candidate, of the type asked for. *)
Definition env_posix : Env :=
  {| getaddrinfo := λ address port type,
       Return [{| ai_family := 2; ai_socktype := type; ai_proto := 0;
                  ai_sockaddr := (address, port) |}];
     fails_at := λ info,
       match ai_socktype info with
       | SOCK_DGRAM => Some do_listen
       | SOCK_STREAM => None
       end;
     select_ready := λ read_socks, read_socks;
     accept_raises := λ _, false;
     recv_data := λ _, Some [];
     shutdown_raises := λ _, false;
     sock_send_raises := λ _, false;
     send_reply := λ _ _, Some (PDict (<["success" := PBool true]> ∅));
     fire_raises := λ _ _, false |}.

(** The name of the host cannot be encoded for the resolver. *)
Definition env_unencodable : Env :=
  {| getaddrinfo := λ _ _ _,
       Raise (UnicodeError "encoding with 'idna' codec failed");
     fails_at := λ _, None;
     select_ready := λ read_socks, read_socks;
     accept_raises := λ _, false;
     recv_data := λ _, Some [];
     shutdown_raises := λ _, false;
     sock_send_raises := λ _, false;
     send_reply := λ _ _, None;
     fire_raises := λ _ _, false |}.

(** A session bound to one server socket and linked to a peer. *)
Definition linked : World :=
  {| self := {| __peer := Some "peer-out";
                __tunnel_uid := PStr "tunnel-1";
                __server_socks := [0%nat];
                __clients_socks := ∅;
                __next_id := 0;
                __link_sock := ∅;
                __sock_link := ∅;
                __running := true |};
     objects := 1;
     trace := [] |}.

(** The same session with three open links: sockets 1, 2, 3 under the ids
    0, 1, 2. *)
Definition three_links : World :=
  {| self := {| __peer := Some "peer-out";
                __tunnel_uid := PStr "tunnel-1";
                __server_socks := [0%nat];
                __clients_socks := {[1%nat; 2%nat; 3%nat]};
                __next_id := 3;
                __link_sock := <[0 := 1%nat]> (<[1 := 2%nat]> (<[2 := 3%nat]> ∅));
                __sock_link := <[1%nat := 0]> (<[2%nat := 1]> (<[3%nat := 2]> ∅));
                __running := true |};
     objects := 4;
     trace := [] |}.

(** The listening socket fails to accept. *)
Definition env_accept_fails : Env :=
  {| getaddrinfo := getaddrinfo env_ok;
     fails_at := λ _, None;
     select_ready := λ read_socks, read_socks;
     accept_raises := λ _, true;
     recv_data := λ _, Some [];
     shutdown_raises := λ _, false;
     sock_send_raises := λ _, false;
     send_reply := λ _ _, None;
     fire_raises := λ _ _, false |}.

(** The peer rejects the link with a reply that has no error text. *)
Definition env_bare_rejection : Env :=
  {| getaddrinfo := getaddrinfo env_ok;
     fails_at := λ _, None;
     select_ready := λ read_socks, read_socks;
     accept_raises := λ _, false;
     recv_data := λ _, Some [];
     shutdown_raises := λ _, false;
     sock_send_raises := λ _, false;
     send_reply := λ _ _, Some (PDict (<["success" := PBool false]> ∅));
     fire_raises := λ _ _, false |}.

(** The content of the [create_link] message for an id. *)
Definition create_link_content (t : SocketTunnelIn) (link_id : Z) : dict :=
  <["tunnel" := __tunnel_uid t]> (<["link_id" := PInt link_id]> ∅).

(** The text found under [data] in the content of a requested message. *)
Definition payload_text (content : dict) : option string :=
  match content !! "data" with
  | Some (PStr text) => Some text
  | _ => None
  end.

(** [read_loop()], with one environment for each turn of the loop; the
    answer is [false] when the turns given are used up while the flag is
    still set, [true] when the loop ends. *)
Fixpoint read_loop (Message : string → dict → result beans.Message)
    (envs : list Env) : M bool :=
  t <- get ;;
  if __running t then
    match envs with
    | [] => ret false
    | env :: rest => read_once Message env ;;; read_loop Message rest
    end
  else ret true.

(** The chunk carried by the content of a [data] message that is asked
    for, decoded; [None] for the other events. *)
Definition data_request (e : event) : option (option (list byte)) :=
  match e with
  | ev_Message subject content =>
      if String.eqb subject "herald/tunnel/data" then
        Some (payload_text content ≫= λ text, base64.b64decode (to_bytes text))
      else None
  | _ => None
  end.

(** A chunk that one read can give: not empty, and no longer than the
    buffer. *)
Definition chunk_ok (r : option (list byte)) : Prop :=
  ∃ data, r = Some data ∧ (0 < length data ≤ BUFFER_SIZE)%nat.

(** The chunks asked to be relayed since a given trace are all well sized. *)
Definition relays_chunks (tr : list event) (w : World) : Prop :=
  ∃ evs, trace w = tr ++ evs ∧ Forall chunk_ok (omap data_request evs).

(** ** [herald/beans.py]: the [Peer] bean *)

Module beans_Peer.

(** The errors of this part of the code. *)
Inductive error :=
| ValueError (msg : string)
| KeyError
| TypeError (msg : string)
| AttributeError (attribute : string).

Inductive outcome (A : Type) :=
| Ok (a : A)
| Err (e : error).
Arguments Ok {A} a.
Arguments Err {A} e.

(** [x or y], for [x] a string or [None]. *)
Definition or_else (x : option string) (y : string) : string :=
  match x with
  | Some s => if String.eqb s EmptyString then y else s
  | None => y
  end.

(** [not x], for [x] a string or [None]. *)
Definition falsy (x : option string) : bool :=
  match x with
  | Some s => String.eqb s EmptyString
  | None => true
  end.

Section Access.

(** The descriptions of accesses are objects of the transports; what the
    bean asks of them is [data != old_data], where [old_data] may be [None],
    and [isinstance(data, RawAccess)]. *)
Variable Access : Type.
Variable access_ne : Access → option Access → bool.
Variable is_RawAccess : Access → bool.

(** The members of a [Peer]; of the directory, what matters is which
    attributes it has. *)
Record Peer := {
  __uid : string;
  __name : string;
  __node : string;
  __node_name : string;
  __app_id : option string;
  __groups : gset string;
  __accesses : gmap string Access;
  __directory : list string;
}.

(** [Peer.__init__(uid, node_uid, app_id, groups, directory)] *)
Definition __init__ (uid node_uid app_id : option string)
    (groups : option (list string)) (directory : list string)
    : outcome Peer :=
  if falsy uid then Err (ValueError "The UID of a peer can't be empty")
  else
    let uid := or_else uid EmptyString in
    let node := or_else node_uid uid in
    Ok {| __uid := uid;
          __name := uid;
          __node := node;
          __node_name := node;
          __app_id := app_id;
          __groups := list_to_set (default [] groups);
          __accesses := ∅;
          __directory := directory |}.

(** [__str__] *)
Definition __str__ (self : Peer) : string :=
  if negb (String.eqb (__name self) EmptyString) &&
     negb (String.eqb (__name self) (__uid self))
  then __name self +:+ " (" +:+ __uid self +:+ ")"
  else __uid self.

(** [__eq__] and [__lt__]; [None] stands for an object that is not a
    [Peer]. *)
Definition __eq__ (self : Peer) (other : option Peer) : bool :=
  match other with
  | Some other => String.eqb (__uid self) (__uid other)
  | None => false
  end.

Definition __lt__ (self : Peer) (other : option Peer) : bool :=
  match other with
  | Some other => String.ltb (__uid self) (__uid other)
  | None => false
  end.

(** The setters of [name] and [node_name] *)
Definition set_name (self : Peer) (value : option string) : Peer :=
  {| __uid := __uid self;
     __name := or_else value (__uid self);
     __node := __node self;
     __node_name := __node_name self;
     __app_id := __app_id self;
     __groups := __groups self;
     __accesses := __accesses self;
     __directory := __directory self |}.

Definition set_node_name (self : Peer) (value : option string) : Peer :=
  {| __uid := __uid self;
     __name := __name self;
     __node := __node self;
     __node_name := or_else value (__node self);
     __app_id := __app_id self;
     __groups := __groups self;
     __accesses := __accesses self;
     __directory := __directory self |}.

Definition with_accesses (accesses : gmap string Access) (self : Peer) : Peer :=
  {| __uid := __uid self;
     __name := __name self;
     __node := __node self;
     __node_name := __node_name self;
     __app_id := __app_id self;
     __groups := __groups self;
     __accesses := accesses;
     __directory := __directory self |}.

(** A call of a method of the directory: [method(self, access_id, data)]. *)
Record callback := {
  cb_method : string;
  cb_peer : string;
  cb_access_id : string;
  cb_data : Access;
}.

(** What the directory does when it is called back: [None] when the
    method returns, an error when it raises. *)
Variable called_back : callback → option error.

(** [__callback(method_name, access_id, data)]: nothing happens when the
    directory has no such attribute. *)
Definition __callback (self : Peer) (method_name access_id : string)
    (data : Access) : outcome unit * list callback :=
  if bool_decide (method_name ∈ __directory self) then
    let c := {| cb_method := method_name; cb_peer := __uid self;
                cb_access_id := access_id; cb_data := data |} in
    (match called_back c with Some e => Err e | None => Ok tt end, [c])
  else (Ok tt, []).

(** [get_access], [get_accesses], [has_access], [has_accesses] *)
Definition get_access (self : Peer) (access_id : string) : outcome Access :=
  match __accesses self !! access_id with
  | Some data => Ok data
  | None => Err KeyError
  end.

(* the keys, in the order of the map; Python gives them in the order of
   the dictionary *)
Definition get_accesses (self : Peer) : list string :=
  (map_to_list (__accesses self)).*1.

Definition has_access (self : Peer) (access_id : string) : bool :=
  bool_decide (is_Some (__accesses self !! access_id)).

Definition has_accesses (self : Peer) : bool :=
  negb (bool_decide (__accesses self = ∅)).

(** [set_access(access_id, data)]: the outcome, the bean afterwards and the
    calls made to the directory. *)
Definition set_access (self : Peer) (access_id : string) (data : Access)
    : outcome unit * Peer * list callback :=
  let old_data := __accesses self !! access_id in
  if access_ne data old_data then
    let self' := with_accesses (<[access_id := data]> (__accesses self)) self in
    if negb (is_RawAccess data) then
      let '(r, calls) := __callback self' "peer_access_set" access_id data in
      (r, self', calls)
    else (Ok tt, self', [])
  else (Ok tt, self, []).

(** [unset_access(access_id)]: [None] is the [return None] of an unknown
    access. *)
Definition unset_access (self : Peer) (access_id : string)
    : outcome (option Access) * Peer * list callback :=
  match __accesses self !! access_id with
  | None => (Ok None, self, [])
  | Some data =>
      let self' := with_accesses (delete access_id (__accesses self)) self in
      let '(r, calls) := __callback self' "peer_access_unset" access_id data in
      (match r with Ok _ => Ok (Some data) | Err e => Err e end, self', calls)
  end.

(** Assignments to the properties, as [setattr] makes them: [name] and
    [node_name] have a setter; [node_uid] and [groups] are properties
    without one, and assigning to them raises. *)
Definition setattr_name (self : Peer) (value : option string) : outcome Peer :=
  Ok (set_name self value).

Definition setattr_node_uid (self : Peer) (value : option string)
    : outcome Peer :=
  Err (AttributeError "node_uid").

Definition setattr_node_name (self : Peer) (value : option string)
    : outcome Peer :=
  Ok (set_node_name self value).

Definition setattr_groups (self : Peer) (value : list string) : outcome Peer :=
  Err (AttributeError "groups").

(** The operations that change a bean. *)
Inductive operation :=
| op_set_name (value : option string)
| op_set_node_name (value : option string)
| op_set_access (access_id : string) (data : Access)
| op_unset_access (access_id : string).

Definition apply (self : Peer) (op : operation) : Peer :=
  match op with
  | op_set_name value => set_name self value
  | op_set_node_name value => set_node_name self value
  | op_set_access access_id data => (set_access self access_id data).1.2
  | op_unset_access access_id => (unset_access self access_id).1.2
  end.

End Access.

Arguments __uid {Access}.
Arguments __name {Access}.
Arguments __node {Access}.
Arguments __node_name {Access}.
Arguments __app_id {Access}.
Arguments __groups {Access}.
Arguments __accesses {Access}.
Arguments __directory {Access}.
Arguments __init__ {Access}.
Arguments __str__ {Access}.
Arguments __eq__ {Access}.
Arguments __lt__ {Access}.
Arguments set_name {Access}.
Arguments set_node_name {Access}.
Arguments with_accesses {Access}.
Arguments cb_method {Access}.
Arguments cb_peer {Access}.
Arguments cb_access_id {Access}.
Arguments cb_data {Access}.
Arguments __callback {Access}.
Arguments get_access {Access}.
Arguments get_accesses {Access}.
Arguments has_access {Access}.
Arguments has_accesses {Access}.
Arguments set_access {Access}.
Arguments unset_access {Access}.
Arguments setattr_name {Access}.
Arguments setattr_node_uid {Access}.
Arguments setattr_node_name {Access}.
Arguments setattr_groups {Access}.
Arguments apply {Access}.
Arguments op_set_name {Access}.
Arguments op_set_node_name {Access}.
Arguments op_unset_access {Access}.
Arguments op_set_access {Access}.

(** The parameters of [Peer.__init__] after [self]; none has a default. *)
Definition parameters : list string :=
  ["uid"; "node_uid"; "app_id"; "groups"; "directory"].

(** The arguments of a call, for the kinds of values that the callers
    pass. *)
Inductive argument :=
| a_str (s : option string)
| a_list (l : list string)
| a_object (attributes : list string).

(** A call of the class with positional arguments: the arguments are bound by position, one for each
    parameter; for values of other kinds than those of the parameters the
    call is outside of this model (the last case). *)
Definition call (Access : Type) (args : list argument)
    : outcome (Peer Access) :=
  if negb (length args =? length parameters)%nat then
    Err (TypeError "__init__() takes exactly 6 arguments")
  else
    match args with
    | [a_str uid; a_str node_uid; a_str app_id; a_list groups;
       a_object directory] =>
        __init__ uid node_uid app_id (Some groups) directory
    | [a_str uid; a_str node_uid; a_str app_id; a_str None;
       a_object directory] =>
        __init__ uid node_uid app_id None directory
    | _ => Err (TypeError "arguments outside of the model")
    end.

End beans_Peer.

(** ** [herald/directory.py]: the core directory *)

Module directory.
Import beans_Peer.

Section Directory.
Variable Access : Type.
Variable access_ne : Access → option Access → bool.
Variable is_RawAccess : Access → bool.

(** A transport directory, seen from the core directory: whether its
    notification methods raise, and what its [load_access] makes of the
    dump of an access. *)
Record TransportDirectory := {
  notification_raises : bool;
  load_access : Access → outcome Access;
}.

(** The members of a [HeraldDirectory]. *)
Record HeraldDirectory := {
  _directories : gmap string TransportDirectory;
  _local_uid : option string;
  _local : option (Peer Access);
  _peers : gmap string (Peer Access);
  _groups : gmap string (gset string);
}.

(** [HeraldDirectory.__init__]; the transport directories are those that
    the framework injects. *)
Definition HeraldDirectory__init__
    (directories : gmap string TransportDirectory) : HeraldDirectory :=
  {| _directories := directories;
     _local_uid := None;
     _local := None;
     _peers := ∅;
     _groups := ∅ |}.

Definition with_peers (peers : gmap string (Peer Access))
    (self : HeraldDirectory) : HeraldDirectory :=
  {| _directories := _directories self;
     _local_uid := _local_uid self;
     _local := _local self;
     _peers := peers;
     _groups := _groups self |}.

(** What the directory does besides changing its members. *)
Inductive event :=
| notified (method_name access_id : string)
| logged_exception (format : string)
| logged_info (format : string).

(** The description of a peer, [in the format of dump()]: a dictionary,
    of which each key may be missing.  The uid is a string; names are
    strings or [None]. *)
Record description := {
  d_uid : option string;
  d_name : option (option string);
  d_node_uid : option (option string);
  d_node_name : option (option string);
  d_groups : option (list string);
  d_accesses : option (list (string * Access));
}.

(** What [beans.Peer] gives when the directory calls it with a uid and
    itself. *)
Variable new_Peer : option string → outcome (Peer Access).

(** [get_peer(uid)], [get_local_peer()], [get_peers()] *)
Definition get_peer (self : HeraldDirectory) (uid : string)
    : outcome (Peer Access) :=
  match _peers self !! uid with
  | Some peer => Ok peer
  | None => Err KeyError
  end.

Definition get_local_peer (self : HeraldDirectory) : option (Peer Access) :=
  _local self.

Definition get_peers (self : HeraldDirectory) : list (Peer Access) :=
  (map_to_list (_peers self)).*2.

(** [peer_access_set] and [peer_access_unset] have the same body, up to
    the method of the transport directory that they call; neither lets an
    exception out. *)
Definition notify (method_name : string) (self : HeraldDirectory)
    (access_id : string) : list event :=
  match _directories self !! access_id with
  | None => []
  | Some transport =>
      if notification_raises transport then
        [notified method_name access_id;
         logged_exception "Error notifying a transport directory: %s"]
      else [notified method_name access_id]
  end.

Definition peer_access_set := notify "peer_access_set".
Definition peer_access_unset := notify "peer_access_unset".

(** [unregister(uid)]: [self._peers.pop(uid, None)] *)
Definition unregister (self : HeraldDirectory) (uid : string)
    : option (Peer Access) * HeraldDirectory :=
  (_peers self !! uid, with_peers (delete uid (_peers self)) self).

(** The calls that a bean made by [register] sends back to this
    directory. *)
Definition called_back (self : HeraldDirectory) (calls : list (callback Access))
    : list event :=
  flat_map (λ c, notify (cb_method c) self (cb_access_id c)) calls.

(** The loop of [register] over the accesses of the description. *)
Definition parsed (self : HeraldDirectory) (access_id : string)
    (data : Access) : outcome Access :=
  match _directories self !! access_id with
  | None => Ok data
  | Some transport =>
      match load_access transport data with
      | Ok data' => Ok data'
      | Err KeyError => Ok data
      | Err e => Err e
      end
  end.

Fixpoint set_accesses (self : HeraldDirectory) (peer : Peer Access)
    (accesses : list (string * Access))
    : outcome (Peer Access) * list event :=
  match accesses with
  | [] => (Ok peer, [])
  | (access_id, data) :: rest =>
      match parsed self access_id data with
      | Err e => (Err e, [])
      | Ok data =>
          let '(_, peer, calls) :=
            set_access access_ne is_RawAccess (λ _, None) peer access_id data in
          let '(r, events) := set_accesses self peer rest in
          (r, called_back self calls ++ events)
      end
  end.

(** The loop of [register] over the writable properties:
    [setattr(peer, name, description[name])] for [name], [node_uid],
    [node_name] and [groups], in this order. *)
Definition set_properties (peer : Peer Access) (d : description)
    : outcome (Peer Access) :=
  match d_name d with
  | None => Err KeyError
  | Some value =>
  match setattr_name peer value with
  | Err e => Err e
  | Ok peer =>
  match d_node_uid d with
  | None => Err KeyError
  | Some value =>
  match setattr_node_uid peer value with
  | Err e => Err e
  | Ok peer =>
  match d_node_name d with
  | None => Err KeyError
  | Some value =>
  match setattr_node_name peer value with
  | Err e => Err e
  | Ok peer =>
  match d_groups d with
  | None => Err KeyError
  | Some value => setattr_groups peer value
  end end end end end end end.

(** [register(description)] *)
Definition register (self : HeraldDirectory) (d : description)
    : outcome unit * HeraldDirectory * list event :=
  match d_uid d with
  | None => (Err KeyError, self, [])
  | Some uid =>
      if bool_decide (Some uid = _local_uid self) ||
         bool_decide (is_Some (_peers self !! uid))
      then (Ok tt, self, [])
      else
        match new_Peer (Some uid) with
        | Err e => (Err e, self, [])
        | Ok peer =>
            match set_properties peer d with
            | Err e => (Err e, self, [])
            | Ok peer =>
                match d_accesses d with
                | None => (Err KeyError, self, [])
                | Some accesses =>
                    match set_accesses self peer accesses with
                    | (Err e, events) => (Err e, self, events)
                    | (Ok peer, events) =>
                        (Ok tt, with_peers (<[uid := peer]> (_peers self)) self,
                         events ++ [logged_info "Registered peer: %s"])
                    end
                end
            end
        end
  end.

(** [load(dump)]: the items of the dump in the order of the iteration;
    an exception of [register] ends the loop. *)
Fixpoint load (self : HeraldDirectory) (dump : list (string * description))
    : outcome unit * HeraldDirectory * list event :=
  match dump with
  | [] => (Ok tt, self, [])
  | (uid, d) :: rest =>
      if bool_decide (is_Some (_peers self !! uid)) then load self rest
      else
        match register self d with
        | (Err e, self, events) => (Err e, self, events)
        | (Ok _, self, events) =>
            let '(r, self, events') := load self rest in
            (r, self, events ++ events')
        end
  end.

(** [_validate(context)]; of the context, the five properties that the
    method reads.  The members are cleared and the local uid is set before
    the bean of the local peer is asked for; the bean is stored before its
    name, its node uid and its node name are assigned. *)
Definition _validate (self : HeraldDirectory)
    (peer_uid framework_uid peer_name node_uid node_name : option string)
    : outcome unit * HeraldDirectory :=
  let local_uid := if falsy peer_uid then framework_uid else peer_uid in
  let cleared (local : option (Peer Access)) :=
    {| _directories := _directories self;
       _local_uid := local_uid;
       _local := local;
       _peers := ∅;
       _groups := ∅ |} in
  match new_Peer local_uid with
  | Err e => (Err e, cleared (_local self))
  | Ok peer =>
      let peer := set_name peer
                    (if falsy peer_name then local_uid else peer_name) in
      match setattr_node_uid peer
              (if falsy node_uid then local_uid else node_uid) with
      | Err e => (Err e, cleared (Some peer))
      | Ok peer =>
          let peer := set_node_name peer
                        (if falsy node_name then Some (__node peer)
                         else node_name) in
          (Ok tt, cleared (Some peer))
      end
  end.

(** [_invalidate(context)] *)
Definition _invalidate (self : HeraldDirectory) : HeraldDirectory :=
  {| _directories := _directories self;
     _local_uid := _local_uid self;
     _local := None;
     _peers := ∅;
     _groups := ∅ |}.

(** The calls that may change a directory. *)
Inductive dcall :=
| c_validate (peer_uid framework_uid peer_name node_uid node_name
    : option string)
| c_invalidate
| c_register (d : description)
| c_load (dump : list (string * description))
| c_unregister (uid : string).

Definition dstep (self : HeraldDirectory) (c : dcall) : HeraldDirectory :=
  match c with
  | c_validate peer_uid framework_uid peer_name node_uid node_name =>
      (_validate self peer_uid framework_uid peer_name node_uid node_name).2
  | c_invalidate => _invalidate self
  | c_register d => (register self d).1.2
  | c_load dump => (load self dump).1.2
  | c_unregister uid => (unregister self uid).2
  end.

Definition druns (self : HeraldDirectory) (calls : list dcall)
    : HeraldDirectory :=
  fold_left dstep calls self.

End Directory.

Arguments notification_raises {Access}.
Arguments load_access {Access}.
Arguments _directories {Access}.
Arguments _local_uid {Access}.
Arguments _local {Access}.
Arguments _peers {Access}.
Arguments _groups {Access}.
Arguments HeraldDirectory__init__ {Access}.
Arguments with_peers {Access}.
Arguments get_peer {Access}.
Arguments get_local_peer {Access}.
Arguments get_peers {Access}.
Arguments notify {Access}.
Arguments peer_access_set {Access}.
Arguments peer_access_unset {Access}.
Arguments unregister {Access}.
Arguments called_back {Access}.
Arguments parsed {Access}.
Arguments set_accesses {Access}.
Arguments set_properties {Access}.
Arguments register {Access}.
Arguments load {Access}.
Arguments _validate {Access}.
Arguments _invalidate {Access}.
Arguments dstep {Access}.
Arguments druns {Access}.
Arguments d_uid {Access}.
Arguments d_name {Access}.
Arguments d_node_uid {Access}.
Arguments d_node_name {Access}.
Arguments d_groups {Access}.
Arguments d_accesses {Access}.
Arguments c_validate {Access}.
Arguments c_invalidate {Access}.
Arguments c_register {Access}.
Arguments c_load {Access}.
Arguments c_unregister {Access}.

(** The attributes of a [HeraldDirectory] that a bean can look up. *)
Definition attributes : list string :=
  ["local_uid"; "get_peer"; "get_local_peer"; "get_peers";
   "peer_access_set"; "peer_access_unset"; "dump"; "load"; "register";
   "unregister"].

(** [beans.Peer(uid, self)], as [directory.py] writes it. *)
Definition Peer_call (Access : Type) (uid : option string)
    : outcome (Peer Access) :=
  call Access [a_str uid; a_object attributes].

End directory.

(** A sample of descriptions of accesses: numbers, which differ when they
    are not the same number; the even ones stand for raw accesses. *)
Definition sample_ne (d : nat) (o : option nat) : bool :=
  match o with
  | Some d' => negb (d =? d')%nat
  | None => true
  end.

Definition sample_peer (accesses : gmap string nat) (directory : list string)
    : beans_Peer.Peer nat :=
  {| beans_Peer.__uid := "peer-1"; beans_Peer.__name := "peer-1";
     beans_Peer.__node := "peer-1"; beans_Peer.__node_name := "peer-1";
     beans_Peer.__app_id := None; beans_Peer.__groups := ∅;
     beans_Peer.__accesses := accesses;
     beans_Peer.__directory := directory |}.

(** ** A program logic for [M] *)

(** From a world satisfying [P], [m] returns [a] in a world satisfying
    [Q a], or raises in a world satisfying [E]. *)
Definition hoare {A} (P : World → Prop) (m : M A)
    (Q : A → World → Prop) (E : World → Prop) : Prop :=
  ∀ w, P w →
    match m w with
    | (Return a, w') => Q a w'
    | (Raise _, w') => E w'
    end.

(** [m] keeps [P], however it ends. *)
Definition keeps {A} (P : World → Prop) (m : M A) : Prop :=
  hoare P m (λ _, P) P.

(** * Properties *)

(** ** The codec *)

Lemma sextet_roundtrip (n : N) :
  (n < 64)%N →
  base64.table_a2b (base64.table_b2a n) = Some n ∧
  Byte.eqb (base64.table_b2a n) base64.PAD = false.
Proof.
  intros Hn. rewrite <- (N2Nat.id n).
  assert (Hk : (N.to_nat n < 64)%nat) by lia.
  generalize dependent (N.to_nat n). clear. intros k Hk.
  do 64 (destruct k as [|k]; [vm_compute; auto|]). lia.
Qed.

Lemma byte_of_N_to_N (b : byte) : base64.byte_of_N (Byte.to_N b) = b.
Proof.
  unfold base64.byte_of_N. pose proof (Byte.to_N_bounded b).
  rewrite N.mod_small by lia. by rewrite Byte.of_to_N.
Qed.

Lemma byte_of_N_eq (n : N) (b : byte) :
  n = Byte.to_N b → base64.byte_of_N n = b.
Proof. intros ->. apply byte_of_N_to_N. Qed.

Ltac sextet n :=
  let H := fresh "H" in
  let Ha := fresh "Ha" in
  let Hp := fresh "Hp" in
  assert (H : (n < 64)%N) by (zify; Z.to_euclidean_division_equations; lia);
  destruct (sextet_roundtrip n H) as [Ha Hp];
  rewrite ?Ha, ?Hp; clear H.

Ltac byte_arith :=
  apply byte_of_N_eq; zify; Z.to_euclidean_division_equations; lia.

(** Induction three elements at a time, as the encoder reads its input. *)
Lemma list_ind_by3 {A} (P : list A → Prop) :
  P [] → (∀ a, P [a]) → (∀ a b, P [a; b]) →
  (∀ a b c l, P l → P (a :: b :: c :: l)) →
  ∀ l, P l.
Proof.
  intros H0 H1 H2 H3.
  assert (Hall : ∀ l, P l ∧ (∀ a, P (a :: l)) ∧ (∀ a b, P (a :: b :: l))).
  { induction l as [|x l (IH0 & IH1 & IH2)]; [by auto|].
    split; [apply IH1|]. split; [intros; apply IH2|].
    intros a b. by apply H3. }
  intros l. apply Hall.
Qed.

(** Decoding an encoding gives the bytes back. *)
Lemma b64decode_b64encode (s : list byte) :
  base64.b64decode (base64.b64encode s) = Some s.
Proof.
  induction s as [|b1|b1 b2|b1 b2 b3 rest IH] using list_ind_by3.
  - reflexivity.
  - pose proof (Byte.to_N_bounded b1).
    cbn [base64.b64encode base64.b64decode].
    sextet (Byte.to_N b1 / 4)%N. sextet (Byte.to_N b1 mod 4 * 16)%N.
    cbn. f_equal. f_equal. byte_arith.
  - pose proof (Byte.to_N_bounded b1). pose proof (Byte.to_N_bounded b2).
    cbn [base64.b64encode base64.b64decode].
    sextet (Byte.to_N b1 / 4)%N.
    sextet (Byte.to_N b1 mod 4 * 16 + Byte.to_N b2 / 16)%N.
    sextet (Byte.to_N b2 mod 16 * 4)%N.
    cbn. f_equal. f_equal; [byte_arith|]. f_equal. byte_arith.
  - pose proof (Byte.to_N_bounded b1). pose proof (Byte.to_N_bounded b2).
    pose proof (Byte.to_N_bounded b3).
    cbn [base64.b64encode base64.b64decode]. rewrite IH.
    sextet (Byte.to_N b1 / 4)%N.
    sextet (Byte.to_N b1 mod 4 * 16 + Byte.to_N b2 / 16)%N.
    sextet (Byte.to_N b2 mod 16 * 4 + Byte.to_N b3 / 64)%N.
    sextet (Byte.to_N b3 mod 64)%N.
    f_equal. f_equal; [byte_arith|]. f_equal; [byte_arith|].
    f_equal. byte_arith.
Qed.

Lemma to_bytes_to_str (data : list byte) : to_bytes (to_str data) = data.
Proof. apply String.list_byte_of_string_of_list_byte. Qed.

(** The text put in a [data] message decodes to the chunk it was made of. *)
Lemma payload_roundtrip (data : list byte) :
  base64.b64decode (to_bytes (to_str (base64.b64encode data))) = Some data.
Proof. rewrite to_bytes_to_str. apply b64decode_b64encode. Qed.

(** ** Rules of the program logic *)

Section Rules.
Context {A B : Type}.
Implicit Types (P E : World → Prop).

Lemma hoare_ret P (a : A) (Q : A → World → Prop) E :
  (∀ w, P w → Q a w) → hoare P (ret a) Q E.
Proof. intros H w Hw. by apply H. Qed.

Lemma hoare_raise P (e : exn) (Q : A → World → Prop) E :
  (∀ w, P w → E w) → hoare P (raise e) Q E.
Proof. intros H w Hw. by apply H. Qed.

Lemma hoare_bind P (m : M A) (f : A → M B) (R : A → World → Prop)
    (Q : B → World → Prop) E :
  hoare P m R E → (∀ a, hoare (R a) (f a) Q E) → hoare P (bind m f) Q E.
Proof.
  intros Hm Hf w Hw. unfold bind. specialize (Hm w Hw).
  destruct (m w) as [[a|e] w']; [|done]. by apply Hf.
Qed.

Lemma hoare_conseq P P' (m : M A) (Q Q' : A → World → Prop) E E' :
  hoare P' m Q' E' → (∀ w, P w → P' w) → (∀ a w, Q' a w → Q a w) →
  (∀ w, E' w → E w) → hoare P m Q E.
Proof.
  intros Hm HP HQ HE w Hw. specialize (Hm w (HP w Hw)).
  destruct (m w) as [[a|e] w']; auto.
Qed.

Lemma keeps_bind P (m : M A) (f : A → M B) :
  keeps P m → (∀ a, keeps P (f a)) → keeps P (bind m f).
Proof. intros Hm Hf. by eapply hoare_bind. Qed.

Lemma keeps_ret P (a : A) : keeps P (ret a).
Proof. by apply hoare_ret. Qed.

Lemma keeps_raise P (e : exn) : keeps P (raise (A := A) e).
Proof. by apply hoare_raise. Qed.

Lemma keeps_try_except P (body : M A) (handler : exn → option (M A)) :
  keeps P body → (∀ e h, handler e = Some h → keeps P h) →
  keeps P (try_except body handler).
Proof.
  intros Hb Hh w Hw. unfold try_except. specialize (Hb w Hw).
  destruct (body w) as [[a|e] w']; [done|].
  destruct (handler e) as [h|] eqn:He; [|done]. by apply (Hh e h He).
Qed.

Lemma keeps_try_except_else P (body : M A) (handler : exn → option (M B))
    (orelse : A → M B) :
  keeps P body → (∀ e h, handler e = Some h → keeps P h) →
  (∀ a, keeps P (orelse a)) →
  keeps P (try_except_else body handler orelse).
Proof.
  intros Hb Hh Ho w Hw. unfold try_except_else. specialize (Hb w Hw).
  destruct (body w) as [[a|e] w']; [by apply Ho|].
  destruct (handler e) as [h|] eqn:He; [|done]. by apply (Hh e h He).
Qed.

Lemma keeps_try_finally P (body : M A) (final : M unit) :
  keeps P body → keeps P final → keeps P (try_finally body final).
Proof.
  intros Hb Hf w Hw. unfold try_finally. specialize (Hb w Hw).
  assert (Hw' : P (body w).2) by (destruct (body w) as [[a|e] w']; done).
  destruct (body w) as [r w']. specialize (Hf w' Hw').
  destruct (final w') as [[[]|e'] w'']; [|done]. by destruct r.
Qed.

Lemma except_IOError_Some (h h' : M A) e :
  except_IOError h e = Some h' → h' = h.
Proof. destruct e; simpl; congruence. Qed.

Lemma except_HeraldException_Some (h h' : M A) e :
  except_HeraldException h e = Some h' → h' = h.
Proof. destruct e; simpl; congruence. Qed.
End Rules.

Lemma hoare_of_keeps {A} (P E : World → Prop) (m : M A) :
  keeps P m → (∀ w, P w → E w) → hoare P m (λ _, P) E.
Proof. intros Hm HE. eapply hoare_conseq; [exact Hm|auto..]. Qed.

Lemma keeps_get P : keeps P get.
Proof. by intros w Hw. Qed.

Lemma keeps_for_each {X} P (l : list X) (body : X → M unit) :
  (∀ x, keeps P (body x)) → keeps P (for_each l body).
Proof.
  intros Hb. induction l as [|x l IH]; simpl.
  - apply keeps_ret.
  - apply keeps_bind; [apply Hb|]. by intros _.
Qed.

(** The world after [m] satisfies [P] whenever the world before does. *)
Lemma keeps_after {A} P (m : M A) w : keeps P m → P w → P (m w).2.
Proof. intros Hm Hw. specialize (Hm w Hw). by destruct (m w) as [[a|e] w']. Qed.

Lemma keeps_getitem P v key : keeps P (getitem v key).
Proof.
  destruct v; simpl; try apply keeps_raise.
  destruct (d !! key); [apply keeps_ret|apply keeps_raise].
Qed.

(** Splitting a computation along its structure; what is left is about
    [emit], [modify], [new_object] and the calls of other methods. *)
Ltac keeps_step :=
  lazymatch goal with
  | |- keeps _ (bind _ _) => apply keeps_bind; [|intros ?]
  | |- keeps _ (ret _) => apply keeps_ret
  | |- keeps _ (raise _) => apply keeps_raise
  | |- keeps _ get => apply keeps_get
  | |- keeps _ (getitem _ _) => apply keeps_getitem
  | |- keeps _ (with_lock _) => unfold with_lock
  | |- keeps _ (try_except _ (except_IOError _)) =>
      apply keeps_try_except;
      [|intros ? ? ->%except_IOError_Some]
  | |- keeps _ (try_except _ (except_HeraldException _)) =>
      apply keeps_try_except;
      [|intros ? ? ->%except_HeraldException_Some]
  | |- keeps _ (try_except_else _ (except_IOError _) _) =>
      apply keeps_try_except_else;
      [|intros ? ? ->%except_IOError_Some|intros ?]
  | |- keeps _ (try_finally _ _) => apply keeps_try_finally
  | |- keeps _ (for_each _ _) => apply keeps_for_each; intros ?
  | |- keeps _ (match ?x with _ => _ end) => destruct x eqn:?
  end.

(** ** The bean cannot be built *)

Lemma Message_call_raises subject content :
  beans.Message_call subject content =
  Raise (TypeError "__init__() missing required positional argument").
Proof. reflexivity. Qed.

Lemma load_names_target globals names1 names2 :
  "target" ∉ globals →
  ∃ e, beans.load_names globals (names1 ++ "target" :: names2) = Raise e.
Proof.
  intros Hg. induction names1 as [|n names1 IH]; simpl.
  - unfold beans.load_name. rewrite bool_decide_eq_false_2; [by eexists|].
    assert (H1 : bool_decide ("target" ∈ "self" :: beans.parameters) = false)
      by (by vm_compute).
    assert (H2 : bool_decide ("target" ∈ beans.builtins) = false)
      by (by vm_compute).
    apply bool_decide_eq_false in H1, H2.
    rewrite !elem_of_app. by intros [H|[H|H]].
  - destruct (beans.load_name globals n); [done|by eexists].
Qed.

(** Whatever the module defines besides [target], and whatever the
    arguments, no object comes out of [__init__]. *)
Lemma __init___raises globals args :
  "target" ∉ globals → ∃ e, beans.__init__ globals args = Raise e.
Proof.
  intros Hg. unfold beans.__init__.
  destruct (_ <? _)%nat; [by eexists|].
  destruct (_ <? _)%nat; [by eexists|].
  destruct (load_names_target globals
              (take 14 beans.names_read) (drop 15 beans.names_read) Hg)
    as [e He].
  change (take 14 beans.names_read ++ "target" :: drop 15 beans.names_read)
    with beans.names_read in He.
  rewrite He. by eexists.
Qed.

Lemma target_not_global : "target" ∉ beans.module_globals.
Proof.
  assert (H : bool_decide ("target" ∈ beans.module_globals) = false)
    by (by vm_compute).
  by apply bool_decide_eq_false in H.
Qed.

Section Unbuilt.
Variable env : Env.

(** A property that survives the steps taken before a message is built. *)
Variable P : World → Prop.
Hypothesis P_emit : ∀ e, is_herald e = false → keeps P (emit e).
Hypothesis P_new_object : keeps P new_object.
Hypothesis P_modify :
  ∀ f, (∀ t, no_link t → no_link (f t)) → keeps P (modify f).
Hypothesis P_unregister : ∀ clt_sock, keeps P (unregister clt_sock).

Lemma unbuilt_new_Message (A : Type) subject content (k : beans.Message → M A) :
  keeps P (bind (new_Message beans.Message_call subject content) k).
Proof.
  eapply hoare_bind with (R := λ _ _, False); [|by intros ? ? []].
  unfold new_Message. eapply hoare_bind; [by apply P_emit|].
  intros ?. rewrite Message_call_raises. by apply hoare_raise.
Qed.

Ltac leaf :=
  lazymatch goal with
  | |- keeps _ (bind (new_Message _ _ _) _) => apply unbuilt_new_Message
  | |- keeps _ (emit _) => by apply P_emit
  | |- keeps _ new_object => apply P_new_object
  | |- keeps _ (modify _) => by apply P_modify; intros [] (?&?&?)
  | |- keeps _ (unregister _) => apply P_unregister
  | |- keeps _ (if ?b then _ else _) => destruct b eqn:?
  | |- _ => keeps_step
  end.

Lemma unbuilt_shutdown_finally_close s : keeps P (shutdown_finally_close env s).
Proof.
  unfold shutdown_finally_close, sock_shutdown, sock_close. repeat leaf.
Qed.

Lemma unbuilt__on_close clt_sock :
  keeps P (_on_close beans.Message_call env clt_sock).
Proof.
  unfold _on_close. repeat leaf. apply unbuilt_shutdown_finally_close.
Qed.

Lemma unbuilt__on_accept server_sock :
  keeps P (_on_accept beans.Message_call env server_sock).
Proof.
  unfold _on_accept, sock_accept, allocate, logger_error. repeat leaf.
Qed.

Lemma unbuilt__on_recv clt_sock data :
  keeps P (_on_recv beans.Message_call env clt_sock data).
Proof. unfold _on_recv, logger_warning. repeat leaf. Qed.

Lemma unbuilt_close send_close :
  keeps P (close beans.Message_call env send_close).
Proof.
  unfold close, close_server_sockets, close_client_sockets,
    send_close_message.
  repeat leaf.
  - apply unbuilt_shutdown_finally_close.
  - apply unbuilt__on_close.
Qed.

Lemma unbuilt_perform c : keeps P (perform beans.Message_call env c).
Proof.
  destruct c; simpl.
  - unfold setup, setup_candidate, create_and_bind, logger_error.
    repeat leaf.
  - unfold link. repeat leaf.
  - apply unbuilt_close.
  - unfold send, sock_send, logger_error. repeat leaf.
  - unfold read_once, dispatch, sock_recv, logger_error. repeat leaf;
      auto using unbuilt__on_accept, unbuilt__on_close, unbuilt__on_recv.
  - apply unbuilt__on_accept.
  - apply unbuilt__on_close.
  - apply unbuilt__on_recv.
Qed.
End Unbuilt.

(** With the bean as it is, no call hands a message to Herald. *)
Lemma silent_perform env L c :
  keeps (λ w, heralded (trace w) = L) (perform beans.Message_call env c).
Proof.
  apply unbuilt_perform.
  - intros e He w Hw. simpl. unfold heralded in *.
    rewrite List.filter_app. simpl. rewrite He. by rewrite app_nil_r.
  - by intros w Hw.
  - by intros f _ w Hw.
  - intros clt_sock w Hw. unfold unregister, with_lock, bind, get, modify, ret, raise.
    repeat case_match; simplify_eq; done.
Qed.

(** With the bean as it is, no call registers a link. *)
Lemma no_link_perform env c :
  keeps (λ w, no_link (self w)) (perform beans.Message_call env c).
Proof.
  apply unbuilt_perform.
  - by intros e He w Hw.
  - by intros w Hw.
  - intros f Hf w Hw. by apply Hf.
  - intros clt_sock w (Hc & Hl & Hs).
    unfold unregister, with_lock, bind, get.
    rewrite bool_decide_eq_false_2; [done|]. rewrite Hc. set_solver.
Qed.

Lemma keeps_run Message (P : World → Prop) calls w :
  (∀ env c, keeps P (perform Message env c)) → P w → P (run Message calls w).
Proof.
  intros Hk. revert w. induction calls as [|[env c] calls IH]; intros w Hw.
  - done.
  - simpl. apply IH. unfold step. simpl. by apply keeps_after.
Qed.

Lemma no_link_reachable calls :
  no_link (self (run beans.Message_call calls initial)).
Proof.
  apply (keeps_run _ (λ w, no_link (self w))).
  - intros. apply no_link_perform.
  - done.
Qed.

(** C10. Every construction of a wire message fails: the call with a
    subject and a content, as [server.py] writes it, raises [TypeError]
    for the missing third positional argument; whatever the arguments,
    [Message.__init__] raises, because its body reads names that the module
    does not define; hence no call on a [SocketTunnelIn], in any state,
    hands a message to the Herald service, and no session ever registers a
    link. *)
Theorem C10_no_message_is_ever_built :
  (∀ subject content, ∃ text,
     beans.Message_call subject content = Raise (TypeError text)) ∧
  (∀ args, ∃ e, beans.__init__ beans.module_globals args = Raise e) ∧
  (∀ env c w,
     heralded (trace (step beans.Message_call w (env, c))) =
     heralded (trace w)) ∧
  (∀ calls,
     heralded (trace (run beans.Message_call calls initial)) = [] ∧
     no_link (self (run beans.Message_call calls initial))).
Proof.
  split; [|split; [|split]].
  - intros. eexists. apply Message_call_raises.
  - intros. apply __init___raises, target_not_global.
  - intros env c w. unfold step. simpl.
    apply (keeps_after (λ w', heralded (trace w') = heralded (trace w)));
      [apply silent_perform|done].
  - intros calls. split; [|apply no_link_reachable].
    apply (keeps_run _ (λ w, heralded (trace w) = [])); [|done].
    intros. apply silent_perform.
Qed.


(** ** Properties kept by every call *)

Section Kept.
Variable Message : string → dict → result beans.Message.
Variable env : Env.

(** A property kept by the steps that leave the link table alone, by the
    two handlers that change it, and by the clean-up of [close]. *)
Variable P : World → Prop.
Hypothesis P_emit : ∀ e, create_link_id e = None → keeps P (emit e).
Hypothesis P_new_object : keeps P new_object.
Hypothesis P_modify : ∀ f, (∀ t, same_table t (f t)) → keeps P (modify f).
Hypothesis P_on_close : ∀ clt_sock, keeps P (_on_close Message env clt_sock).
Hypothesis P_on_accept :
  ∀ server_sock, keeps P (_on_accept Message env server_sock).
Hypothesis P_close_client_sockets :
  keeps P (close_client_sockets Message env).

Ltac leaf :=
  lazymatch goal with
  | |- keeps _ (emit _) => by apply P_emit
  | |- keeps _ new_object => apply P_new_object
  | |- keeps _ (modify _) => by apply P_modify; intros []
  | |- keeps _ (_on_close _ _ _) => apply P_on_close
  | |- keeps _ (_on_accept _ _ _) => apply P_on_accept
  | |- keeps _ (close_client_sockets _ _) => apply P_close_client_sockets
  | |- keeps _ (if ?b then _ else _) => destruct b eqn:?
  | |- _ => keeps_step
  end.

Lemma kept_shutdown_finally_close s : keeps P (shutdown_finally_close env s).
Proof.
  unfold shutdown_finally_close, sock_shutdown, sock_close. repeat leaf.
Qed.

Lemma kept_setup address port type : keeps P (setup env address port type).
Proof.
  unfold setup, setup_candidate, create_and_bind, logger_error. repeat leaf.
Qed.

Lemma kept_link tunnel_uid out_peer : keeps P (link tunnel_uid out_peer).
Proof. unfold link. repeat leaf. Qed.

Lemma kept_send link_id data : keeps P (send env link_id data).
Proof. unfold send, sock_send, logger_error. repeat leaf. Qed.

Lemma kept__on_recv clt_sock data :
  keeps P (_on_recv Message env clt_sock data).
Proof.
  unfold _on_recv, new_Message, herald_fire, logger_warning, logger_error.
  repeat leaf.
Qed.

Lemma kept_close send_close : keeps P (close Message env send_close).
Proof.
  unfold close, close_server_sockets, send_close_message, new_Message,
    herald_fire.
  repeat leaf. apply kept_shutdown_finally_close.
Qed.

Lemma kept_read_once : keeps P (read_once Message env).
Proof.
  unfold read_once, dispatch, sock_recv, logger_error. repeat leaf;
    apply kept__on_recv.
Qed.

Lemma kept_perform c : keeps P (perform Message env c).
Proof.
  destruct c; simpl.
  - apply keeps_bind; [apply kept_setup|intros; apply keeps_ret].
  - apply kept_link.
  - apply kept_close.
  - apply kept_send.
  - apply kept_read_once.
  - apply P_on_accept.
  - apply P_on_close.
  - apply kept__on_recv.
Qed.
End Kept.

(** ** What the two handlers do to the instance *)

Ltac run_method :=
  unfold _on_accept, _on_close, _on_recv, create_link, register, unregister,
    allocate, new_Message, sock_accept, herald_send, herald_fire,
    shutdown_finally_close, shutdown_else_close, sock_shutdown, sock_close,
    getitem, logger_error, logger_warning, try_except, try_except_else,
    try_finally, with_lock, bind, get, modify, emit, new_object, ret, raise;
  simpl.

(** [_on_accept] leaves the instance as it is (nothing accepted), or takes
    one id, or takes one id and registers the new socket under it. *)
Lemma _on_accept_effect Message env server_sock w :
  let w' := (_on_accept Message env server_sock w).2 in
  let i := __next_id (self w) in
  if accept_raises env server_sock then
    self w' = self w ∧ objects w' = objects w
  else
    objects w' = S (objects w) ∧
    (self w' = set_next_id (i + 1) (self w) ∨
     self w' = registered i (objects w) (set_next_id (i + 1) (self w))).
Proof. run_method. repeat (case_match; simplify_eq/=; auto). Qed.

(** [_on_close] on a socket that is not polled does nothing at all; on a
    polled socket it removes it from the set and from the two maps. *)
Lemma _on_close_effect Message env clt_sock w :
  let w' := (_on_close Message env clt_sock w).2 in
  let t := self w in
  if bool_decide (clt_sock ∈ __clients_socks t) then
    objects w' = objects w ∧
    match __sock_link t !! clt_sock with
    | None =>
        self w' = set_clients_socks (__clients_socks t ∖ {[clt_sock]}) t
    | Some i =>
        match __link_sock t !! i with
        | None =>
            self w' =
            set_sock_link (delete clt_sock (__sock_link t))
              (set_clients_socks (__clients_socks t ∖ {[clt_sock]}) t)
        | Some _ => self w' = unregistered i clt_sock t
        end
    end
  else _on_close Message env clt_sock w = (Return tt, w).
Proof. run_method. repeat (case_match; simplify_eq/=; auto). Qed.

Lemma well_formed_ext w w' :
  self w' = self w → objects w' = objects w → well_formed w → well_formed w'.
Proof.
  intros Hs Ho Hw.
  unfold well_formed, allocated in *. by rewrite Hs, Ho.
Qed.

Lemma well_formed_allocate w w' :
  self w' = set_next_id (__next_id (self w) + 1) (self w) →
  (objects w ≤ objects w')%nat → well_formed w → well_formed w'.
Proof.
  intros Hs Ho (Hinv & Hn0 & Hid & Hobj). unfold well_formed, allocated.
  rewrite Hs. destruct (self w) as [? ? ? ? n ? ?]; simpl in *.
  split; [done|]. split; [lia|]. split.
  - intros i c Hi. specialize (Hid i c Hi). lia.
  - intros c Hc. specialize (Hobj c Hc). lia.
Qed.

(** Registering a new socket under the id just taken keeps the table. *)
Lemma well_formed_register w w' :
  self w' =
    registered (__next_id (self w)) (objects w)
      (set_next_id (__next_id (self w) + 1) (self w)) →
  objects w' = S (objects w) → well_formed w → well_formed w'.
Proof.
  intros Hs Ho ((Hinv & Hcl) & Hn0 & Hid & Hobj). unfold well_formed, allocated.
  rewrite Hs, Ho.
  destruct (self w) as [pe tu ss C n ls sl ru]; clear Hs Ho.
  unfold LinkTable_inv, lookupByConnection, lookupById in *; simpl in *.
  assert (Hfresh_id : ls !! n = None).
  { destruct (ls !! n) as [c|] eqn:Hn; [|done].
    specialize (Hid n c Hn). lia. }
  assert (Hfresh : sl !! objects w = None).
  { destruct (sl !! objects w) as [i|] eqn:Hc; [|done].
    assert (objects w ∈ C) as Hin%Hobj by (apply Hcl; eauto). lia. }
  split; [split|split; [|split]].
  - intros c i. rewrite !lookup_insert.
    repeat case_decide; subst; [| | |apply Hinv];
      (split; intros Hx; first [congruence | apply Hinv in Hx; congruence]).
  - intros c. rewrite elem_of_union, elem_of_singleton, lookup_insert.
    case_decide; subst.
    + split; eauto.
    + rewrite Hcl. split; [intros [?|?]; by subst|auto].
  - lia.
  - intros i c. rewrite lookup_insert. case_decide; subst.
    + intros _. lia.
    + intros Hi%Hid. lia.
  - intros c. rewrite elem_of_union, elem_of_singleton.
    intros [->|Hc%Hobj]; lia.
Qed.

(** Removing a registered socket and its id keeps the table. *)
Lemma well_formed_unregister w w' c i :
  __sock_link (self w) !! c = Some i →
  self w' = unregistered i c (self w) →
  objects w' = objects w → well_formed w → well_formed w'.
Proof.
  intros Hc Hs Ho ((Hinv & Hcl) & Hn0 & Hid & Hobj).
  unfold well_formed, allocated. rewrite Hs, Ho.
  destruct (self w) as [pe tu ss C n ls sl ru]; clear Hs Ho.
  unfold LinkTable_inv, lookupByConnection, lookupById in *; simpl in *.
  assert (Hi : ls !! i = Some c) by by apply Hinv.
  split; [split|split; [|split]].
  - intros c' i'. rewrite !lookup_delete.
    repeat case_decide; subst; [| | |apply Hinv];
      (split; intros Hx; first [congruence | apply Hinv in Hx; congruence]).
  - intros c'. rewrite elem_of_difference, elem_of_singleton, lookup_delete.
    case_decide; subst.
    + split; [by intros [_ []]|by intros []].
    + rewrite Hcl. naive_solver.
  - done.
  - intros i' c'. rewrite lookup_delete. case_decide; [done|]. apply Hid.
  - intros c'. rewrite elem_of_difference. intros [Hin _]. by apply Hobj.
Qed.

Section WellFormed.
Variable Message : string → dict → result beans.Message.
Variable env : Env.

Lemma well_formed__on_accept server_sock :
  keeps well_formed (_on_accept Message env server_sock).
Proof.
  intros w Hw.
  pose proof (_on_accept_effect Message env server_sock w) as He.
  destruct (_on_accept Message env server_sock w) as [r w']; simpl in He.
  assert (well_formed w'); [|by destruct r].
  destruct (accept_raises env server_sock);
    [destruct He as [Hs Ho]|destruct He as [Ho [Hs|Hs]]].
  - by apply (well_formed_ext w).
  - apply (well_formed_allocate w); [done|lia|done].
  - by apply (well_formed_register w).
Qed.

Lemma well_formed__on_close clt_sock :
  keeps well_formed (_on_close Message env clt_sock).
Proof.
  intros w Hw.
  pose proof (_on_close_effect Message env clt_sock w) as He. simpl in He.
  destruct (bool_decide _) eqn:Hin.
  - apply bool_decide_eq_true in Hin.
    destruct (_on_close Message env clt_sock w) as [r w']; simpl in He.
    assert (well_formed w'); [|by destruct r].
    destruct He as [Ho He].
    pose proof Hw as [[Hinv Hcl] Ha].
    apply Hcl in Hin as [i Hi]. unfold lookupByConnection in Hi.
    rewrite Hi in He. apply Hinv in Hi as Hi'. unfold lookupById in Hi'.
    rewrite Hi' in He. by apply (well_formed_unregister w w' clt_sock i).
  - by rewrite He.
Qed.

(** After [_on_close], the socket is not polled, and no socket has been
    added to the polled set. *)
Lemma _on_close_clients clt_sock w :
  well_formed w →
  let w' := (_on_close Message env clt_sock w).2 in
  __clients_socks (self w') = __clients_socks (self w) ∖ {[clt_sock]}.
Proof.
  intros [[Hinv Hcl] Ha]. simpl.
  pose proof (_on_close_effect Message env clt_sock w) as He. simpl in He.
  destruct (bool_decide _) eqn:Hin.
  - apply bool_decide_eq_true in Hin. destruct He as [Ho He].
    apply Hcl in Hin as [i Hi]. unfold lookupByConnection in Hi.
    rewrite Hi in He. apply Hinv in Hi as Hi'. unfold lookupById in Hi'.
    rewrite Hi' in He. rewrite He. by destruct (self w).
  - rewrite He. simpl. apply bool_decide_eq_false in Hin. set_solver.
Qed.

Lemma well_formed_close_loop l :
  hoare (λ w, well_formed w ∧ ∀ c, c ∈ __clients_socks (self w) → c ∈ l)
    (for_each l (_on_close Message env))
    (λ _ w, well_formed w ∧ __clients_socks (self w) = ∅)
    well_formed.
Proof.
  induction l as [|x l IH]; simpl.
  - apply hoare_ret. intros w [Hw Hin]. split; [done|].
    apply set_eq. intros c. split; [|set_solver].
    intros Hc%Hin. by apply elem_of_nil in Hc.
  - eapply hoare_bind with
      (R := λ _ w, well_formed w ∧ ∀ c, c ∈ __clients_socks (self w) → c ∈ l);
      [|intros []; apply IH].
    intros w [Hw Hin].
    pose proof (well_formed__on_close x w Hw) as Hk.
    pose proof (_on_close_clients x w Hw) as Hc. simpl in Hc.
    destruct (_on_close Message env x w) as [[[]|e] w']; [|done].
    split; [done|]. simpl in Hc. rewrite Hc. intros c.
    rewrite elem_of_difference, elem_of_singleton. intros [Hc' Hne].
    apply Hin in Hc'. apply elem_of_cons in Hc' as [?|?]; done.
Qed.

Lemma well_formed_close_client_sockets :
  keeps well_formed (close_client_sockets Message env).
Proof.
  intros w Hw. unfold close_client_sockets.
  unfold bind at 1. simpl.
  pose proof (well_formed_close_loop (elements (__clients_socks (self w))) w)
    as Hl.
  unfold bind.
  destruct (for_each _ _ w) as [[[]|e] w'].
  - destruct Hl as [Hw' He]; [split; [done|]; set_solver|].
    simpl. eapply well_formed_ext; [| |exact Hw']; [|done]. simpl.
    rewrite <- He. by destruct (self w').
  - apply Hl. split; [done|set_solver].
Qed.

Lemma well_formed_perform c : keeps well_formed (perform Message env c).
Proof.
  apply kept_perform.
  - by intros e _ w Hw.
  - intros w ((Hinv & Hcl) & Hn0 & Hid & Hobj).
    split; [done|]. split; [done|]. split; [done|].
    intros c' Hc'%Hobj. simpl. lia.
  - intros f Hf w ((Hinv & Hcl) & Hn0 & Hid & Hobj).
    destruct (Hf (self w)) as (Hc & Hn & Hl & Hs).
    unfold well_formed, allocated, LinkTable_inv, lookupByConnection,
      lookupById in *; simpl. by rewrite Hc, Hn, Hl, Hs.
  - apply well_formed__on_close.
  - apply well_formed__on_accept.
  - apply well_formed_close_client_sockets.
Qed.
End WellFormed.

Lemma well_formed_initial : well_formed initial.
Proof.
  unfold well_formed, allocated, LinkTable_inv, lookupByConnection,
    lookupById; simpl.
  split; [split|split; [done|split]]; intros *; rewrite ?lookup_empty;
    try done; try set_solver.
Qed.

(** C1. In every state that a session reaches, the map from connections to
    ids and the map from ids to connections are inverse of each other, and
    a connection is polled exactly when it is in the maps; the two handlers
    that change the maps do it in one critical section each ([register],
    [unregister]), and each keeps the table well formed. *)
Theorem C1_link_table_maps_are_mutual_inverses :
  ∀ Message calls,
    let t := self (run Message calls initial) in
    (∀ c i, lookupByConnection t c = Some i → lookupById t i = Some c) ∧
    (∀ i c, lookupById t i = Some c → lookupByConnection t c = Some i) ∧
    (∀ c, c ∈ __clients_socks t ↔ is_Some (lookupByConnection t c)) ∧
    (∀ c, c ∈ __clients_socks t ↔ ∃ i, lookupById t i = Some c).
Proof.
  intros Message calls t.
  assert (Hw : well_formed (run Message calls initial)).
  { apply keeps_run; [|apply well_formed_initial].
    intros. apply well_formed_perform. }
  destruct Hw as [[Hinv Hcl] _]. fold t in Hinv, Hcl.
  split; [|split; [|split]].
  - intros c i. apply Hinv.
  - intros i c. apply Hinv.
  - done.
  - intros c. rewrite Hcl. split.
    + intros [i Hi]. exists i. by apply Hinv.
    + intros [i Hi]. exists i. by apply Hinv.
Qed.

(** ** The counter of link ids *)

Section KeptClose.
Variable Message : string → dict → result beans.Message.
Variable env : Env.

(** A property of the trace and of the counter only. *)
Variable P : World → Prop.
Hypothesis P_emit : ∀ e, create_link_id e = None → keeps P (emit e).
Hypothesis P_modify :
  ∀ f, (∀ t, __next_id (f t) = __next_id t) → keeps P (modify f).

Ltac leaf :=
  lazymatch goal with
  | |- keeps _ (emit _) => by apply P_emit
  | |- keeps _ (modify _) => by apply P_modify; intros []
  | |- keeps _ (if ?b then _ else _) => destruct b eqn:?
  | |- _ => keeps_step
  end.

Lemma counter_register link_id clt_sock : keeps P (register link_id clt_sock).
Proof. unfold register. repeat leaf. Qed.

Lemma counter_create_link clt_sock msg :
  keeps P (create_link env clt_sock msg).
Proof.
  unfold create_link, herald_send, shutdown_finally_close,
    shutdown_else_close, sock_shutdown, sock_close, logger_error.
  repeat leaf.
Qed.

Lemma counter__on_close clt_sock : keeps P (_on_close Message env clt_sock).
Proof.
  unfold _on_close, unregister, shutdown_finally_close, sock_shutdown,
    sock_close, new_Message, herald_fire, logger_error.
  repeat leaf.
Qed.

Lemma counter_close_client_sockets :
  keeps P (close_client_sockets Message env).
Proof.
  unfold close_client_sockets. repeat leaf. apply counter__on_close.
Qed.
End KeptClose.

Lemma first_ids_succ (n : Z) : 0 ≤ n → first_ids (n + 1) = first_ids n ++ [n].
Proof.
  intros Hn. unfold first_ids.
  replace (Z.to_nat (n + 1)) with (S (Z.to_nat n)) by lia.
  rewrite seq_S, fmap_app. simpl. f_equal. f_equal. lia.
Qed.

Lemma requested_link_ids_app tr e :
  requested_link_ids (tr ++ [e]) =
  requested_link_ids tr ++
  match create_link_id e with Some i => [i] | None => [] end.
Proof.
  unfold requested_link_ids. rewrite omap_app. simpl.
  by destruct (create_link_id e).
Qed.

Section Counter.
Variable Message : string → dict → result beans.Message.
Variable env : Env.

Lemma sequential_emit e : create_link_id e = None → keeps sequential (emit e).
Proof.
  intros He w [Hn Hw]. split; [done|]. simpl.
  rewrite requested_link_ids_app, He, app_nil_r. done.
Qed.

Lemma sequential_modify f :
  (∀ t, __next_id (f t) = __next_id t) → keeps sequential (modify f).
Proof. intros Hf w [Hn Hw]. unfold sequential. simpl. by rewrite Hf. Qed.

(** Between taking an id and asking the peer to create the link, the id
    taken is the only one below the counter that was not asked for. *)
Lemma sequential__on_accept server_sock :
  keeps sequential (_on_accept Message env server_sock).
Proof.
  unfold _on_accept. apply keeps_bind.
  { unfold sock_accept, logger_error.
    repeat first [by apply sequential_emit | by intros w Hw | keeps_step]. }
  intros [clt_sock|]; [|apply keeps_ret].
  eapply hoare_bind with
    (R := λ i w, 0 ≤ i ∧ __next_id (self w) = i + 1 ∧
                 requested_link_ids (trace w) = first_ids i).
  { intros w [Hn Hw]. simpl. auto. }
  intros i. eapply hoare_bind with
    (R := λ _ w, 0 ≤ i ∧ __next_id (self w) = i + 1 ∧
                 requested_link_ids (trace w) = first_ids i).
  { by intros w Hw. }
  intros t. apply hoare_bind with (R := λ _, sequential).
  { unfold new_Message. apply hoare_bind with (R := λ _, sequential).
    - intros w (Hi & Hn & Hw). split; simpl; [lia|].
      rewrite requested_link_ids_app, Hw, Hn, first_ids_succ by done.
      simpl. by rewrite lookup_insert_ne, lookup_insert_eq.
    - intros _. destruct (Message _ _); [apply keeps_ret|apply keeps_raise]. }
  intros msg. apply keeps_bind.
  { apply counter_create_link;
      auto using sequential_emit, sequential_modify. }
  intros [|]; [|apply keeps_ret].
  apply counter_register; auto using sequential_emit, sequential_modify.
Qed.

Lemma sequential_perform c : keeps sequential (perform Message env c).
Proof.
  apply kept_perform.
  - apply sequential_emit.
  - by intros w Hw.
  - intros f Hf. apply sequential_modify. intros t. apply Hf.
  - intros. apply counter__on_close;
      auto using sequential_emit, sequential_modify.
  - apply sequential__on_accept.
  - apply counter_close_client_sockets;
      auto using sequential_emit, sequential_modify.
Qed.

(** No call takes the counter back. *)
Lemma counter_perform n c :
  keeps (λ w, n ≤ __next_id (self w)) (perform Message env c).
Proof.
  assert (Hm : ∀ f, (∀ t, __next_id (f t) = __next_id t) →
                keeps (λ w, n ≤ __next_id (self w)) (modify f)).
  { intros f Hf w Hw. simpl. by rewrite Hf. }
  apply kept_perform.
  - by intros e _ w Hw.
  - by intros w Hw.
  - intros f Hf. apply Hm. intros t. apply Hf.
  - intros. apply counter__on_close; [by intros e _ w Hw|done].
  - intros server_sock w Hw.
    pose proof (_on_accept_effect Message env server_sock w) as He.
    destruct (_on_accept Message env server_sock w) as [r w']; simpl in He.
    assert (n ≤ __next_id (self w')); [|by destruct r].
    destruct (accept_raises env server_sock);
      [destruct He as [-> _]|destruct He as [_ [->| ->]]];
      destruct (self w); simpl in *; lia.
  - apply counter_close_client_sockets; [by intros e _ w Hw|done].
Qed.
End Counter.

(** C2. Link ids come from one counter that only grows: in every session
    the ids for which a link was asked of the peer are [0, 1, 2, ...] in
    the order of acceptance, up to the counter; no call decrements the
    counter; and a call of [_on_accept] whose [accept] succeeds adds exactly
    one to it, whatever the peer answers afterwards, so that the connection
    accepted after a rejected one gets the next id. *)
Theorem C2_link_ids_are_sequential :
  (∀ Message calls,
     let w := run Message calls initial in
     0 ≤ __next_id (self w) ∧
     requested_link_ids (trace w) = first_ids (__next_id (self w))) ∧
  (∀ Message env c w,
     __next_id (self w) ≤ __next_id (self (step Message w (env, c)))) ∧
  (∀ Message env server_sock w,
     __next_id (self (_on_accept Message env server_sock w).2) =
     __next_id (self w) + (if accept_raises env server_sock then 0 else 1)).
Proof.
  split; [|split].
  - intros Message calls. apply (keeps_run Message sequential); [|done].
    intros. apply sequential_perform.
  - intros Message env c w. unfold step. simpl.
    apply (keeps_after (λ w', __next_id (self w) ≤ __next_id (self w')));
      [apply counter_perform|done].
  - intros Message env server_sock w.
    pose proof (_on_accept_effect Message env server_sock w) as He.
    simpl in He.
    destruct (accept_raises env server_sock);
      [destruct He as [-> _]|destruct He as [_ [->| ->]]];
      destruct (self w); simpl; lia.
Qed.

(** ** Closing one link *)

Lemma events_since_app w tr :
  drop (length (trace w)) (trace w ++ tr) = tr.
Proof. by rewrite drop_app_length. Qed.

Ltac since := unfold events_since; simpl; rewrite <- ?app_assoc, ?events_since_app.

(** [_on_close] on a socket that is not polled: nothing happens. *)
Lemma _on_close_unknown Message env clt_sock w :
  clt_sock ∉ __clients_socks (self w) →
  _on_close Message env clt_sock w = (Return tt, w).
Proof.
  intros Hc. run_method. by rewrite bool_decide_eq_false_2.
Qed.

(** C9. Closing one registered link touches that link only: the pair is
    removed from both maps and from the polled set, the only socket calls
    are the shutdown and the close of that socket, every other registered
    link keeps its two map entries and its place in the polled set, and the
    server sockets, the running flag, the counter, the peer and the tunnel
    uid are unchanged. *)
Theorem C9_on_close_touches_one_link :
  ∀ Message env w c i,
    c ∈ __clients_socks (self w) →
    lookupByConnection (self w) c = Some i →
    lookupById (self w) i = Some c →
    let w' := (_on_close Message env c w).2 in
    self w' = unregistered i c (self w) ∧ objects w' = objects w ∧
    socket_ops (events_since w w') = [ev_shutdown c; ev_close c] ∧
    (∀ c' i', c' ≠ c →
       lookupByConnection (self w) c' = Some i' →
       lookupById (self w) i' = Some c' →
       lookupByConnection (self w') c' = Some i' ∧
       lookupById (self w') i' = Some c' ∧
       (c' ∈ __clients_socks (self w) → c' ∈ __clients_socks (self w'))) ∧
    __server_socks (self w') = __server_socks (self w) ∧
    __running (self w') = __running (self w) ∧
    __next_id (self w') = __next_id (self w) ∧
    __peer (self w') = __peer (self w) ∧
    __tunnel_uid (self w') = __tunnel_uid (self w).
Proof.
  intros Message env w c i Hc Hi Hi' w'.
  unfold lookupByConnection, lookupById in Hi, Hi'.
  assert (Hw' : self w' = unregistered i c (self w) ∧ objects w' = objects w ∧
                socket_ops (events_since w w') = [ev_shutdown c; ev_close c]).
  { subst w'. run_method. rewrite bool_decide_eq_true_2 by done.
    rewrite Hi. simpl. rewrite Hi'. simpl.
    repeat (case_match; simplify_eq/=); since; auto. }
  destruct Hw' as (Hs & Ho & Hev). rewrite Hs.
  split; [done|]. split; [done|]. split; [done|].
  unfold lookupByConnection, lookupById.
  destruct (self w) as [pe tu ss C n ls sl ru]; simpl in *.
  split; [|done].
  intros c' i' Hne Hc' Hi''. rewrite lookup_delete_ne by done.
  split; [done|]. rewrite lookup_delete_ne by congruence.
  split; [done|]. set_solver.
Qed.

(** Closing the link of socket 2 in a session with three links. *)
Lemma C9_witness :
  let w' := (_on_close Message_expected env_ok 2%nat three_links).2 in
  socket_ops (events_since three_links w') = [ev_shutdown 2%nat; ev_close 2%nat] ∧
  lookupById (self w') 0 = Some 1%nat ∧ lookupById (self w') 2 = Some 3%nat ∧
  lookupById (self w') 1 = None ∧
  1%nat ∈ __clients_socks (self w') ∧ 3%nat ∈ __clients_socks (self w').
Proof.
  assert (H2 : 2%nat ∈ __clients_socks (self three_links))
    by (simpl; set_solver).
  assert (H1 : 1%nat ∈ __clients_socks (self three_links))
    by (simpl; set_solver).
  assert (H3 : 3%nat ∈ __clients_socks (self three_links))
    by (simpl; set_solver).
  destruct (C9_on_close_touches_one_link Message_expected env_ok three_links
              2%nat 1 H2 eq_refl eq_refl)
    as (Hs & _ & Hev & Hother & _).
  destruct (Hother 1%nat 0 ltac:(lia) eq_refl eq_refl) as (_ & Ha & Hb).
  destruct (Hother 3%nat 2 ltac:(lia) eq_refl eq_refl) as (_ & Hc & Hd).
  simpl. repeat split; auto.
Defined.

(** ** Closing the tunnel *)

(** [_on_close] leaves the members of the session other than the link
    table as they are. *)
Lemma _on_close_frame Message env clt_sock w :
  let w' := (_on_close Message env clt_sock w).2 in
  __running (self w') = __running (self w) ∧
  __server_socks (self w') = __server_socks (self w) ∧
  __peer (self w') = __peer (self w) ∧
  __tunnel_uid (self w') = __tunnel_uid (self w).
Proof.
  pose proof (_on_close_effect Message env clt_sock w) as He. simpl in *.
  destruct (bool_decide _).
  - destruct He as [_ He]. repeat case_match; rewrite He; by destruct (self w).
  - by rewrite He.
Qed.

Section Close.
Variable Message : string → dict → result beans.Message.
Variable env : Env.

Let stopped (w : World) : Prop :=
  __running (self w) = false ∧ __server_socks (self w) = [].

Lemma stopped_shutdown_finally_close s :
  keeps stopped (shutdown_finally_close env s).
Proof.
  unfold shutdown_finally_close, sock_shutdown, sock_close.
  repeat first [by intros w Hw | keeps_step
               | match goal with |- keeps _ (if ?b then _ else _) => destruct b end].
Qed.

Lemma stopped__on_close clt_sock :
  keeps stopped (_on_close Message env clt_sock).
Proof.
  intros w [Hr Hs].
  destruct (_on_close_frame Message env clt_sock w) as (Hr' & Hs' & _).
  destruct (_on_close Message env clt_sock w) as [r w']; simpl in *.
  assert (stopped w') by (split; congruence). by destruct r.
Qed.

(** When [close] returns, the session is empty. *)
Lemma close_returns send_close :
  hoare (λ _, True) (close Message env send_close)
    (λ _ w, closed (self w)) (λ _, True).
Proof.
  unfold close.
  eapply hoare_bind with (R := λ _ w, __running (self w) = false);
    [by intros w _|intros _].
  eapply hoare_bind with (R := λ _, stopped).
  { unfold close_server_sockets.
    eapply hoare_bind with (R := λ _ w, __running (self w) = false);
      [by intros w Hw|intros t].
    eapply hoare_bind with (R := λ _ w, __running (self w) = false).
    - apply hoare_of_keeps; [|done].
      apply keeps_for_each. intros s.
      unfold shutdown_finally_close, sock_shutdown, sock_close.
      repeat first [by intros w Hw | keeps_step
        | match goal with |- keeps _ (if ?b then _ else _) => destruct b end].
    - intros _ w Hw. by split. }
  intros _.
  eapply hoare_bind with
    (R := λ _ w, stopped w ∧ __clients_socks (self w) = ∅).
  { unfold close_client_sockets.
    eapply hoare_bind with (R := λ _, stopped); [by intros w Hw|intros t].
    eapply hoare_bind with (R := λ _, stopped).
    - apply hoare_of_keeps; [|done].
      apply keeps_for_each, stopped__on_close.
    - intros _ w [Hr Hs]. by repeat split. }
  intros _.
  eapply hoare_bind with
    (R := λ _ w, stopped w ∧ __clients_socks (self w) = ∅).
  { unfold send_close_message, new_Message, herald_fire.
    apply hoare_of_keeps; [|done].
    repeat first [by intros w Hw | keeps_step
      | match goal with |- keeps _ (if ?b then _ else _) => destruct b end]. }
  intros _.
  eapply hoare_bind with
    (R := λ _ w, (stopped w ∧ __clients_socks (self w) = ∅) ∧
                 __tunnel_uid (self w) = PNone).
  { by intros w Hw. }
  intros _ w [[[Hr Hs] Hc] Hu]. by repeat split.
Qed.

(** On an empty session, [close] does nothing and changes nothing. *)
Lemma close_closed send_close w :
  closed (self w) → close Message env send_close w = (Return tt, w).
Proof.
  destruct w as [[pe tu ss C n ls sl ru] o tr].
  intros (Hr & Hs & Hc & Hu & Hp); simpl in *; subst.
  unfold close, close_server_sockets, close_client_sockets,
    send_close_message, bind, get, modify, ret; simpl.
  rewrite elements_empty. simpl. by destruct send_close.
Qed.
End Close.

(** C8. [close] is idempotent: once a call of [close] has returned, another
    call returns without any event (no socket call, no message, no log) and
    leaves the session exactly as it was, because the first call emptied
    the list of server sockets and the set of clients and cleared the peer. *)
Theorem C8_close_is_idempotent :
  ∀ Message env1 env2 send_close1 send_close2 w w1,
    close Message env1 send_close1 w = (Return tt, w1) →
    close Message env2 send_close2 w1 = (Return tt, w1).
Proof.
  intros Message env1 env2 b1 b2 w w1 H1.
  apply close_closed.
  pose proof (close_returns Message env1 b1 w I) as Hc.
  by rewrite H1 in Hc.
Qed.

(** Two calls of [close] on a linked session, the first without the close
    message. *)
Lemma C8_witness :
  close Message_expected env_ok true
    (close Message_expected env_ok false linked).2 =
  (Return tt, (close Message_expected env_ok false linked).2).
Proof.
  apply (C8_close_is_idempotent Message_expected env_ok env_ok false true
           linked).
  reflexivity.
Defined.

(** Closing a socket never raises: an error of [shutdown] is passed over. *)
Lemma shutdown_finally_close_eq env s w :
  shutdown_finally_close env s w =
  (Return tt, {| self := self w; objects := objects w;
                 trace := trace w ++ [ev_shutdown s; ev_close s] |}).
Proof.
  run_method. destruct (shutdown_raises env s); simpl;
    by rewrite <- app_assoc.
Qed.

Lemma for_each_shutdown_finally_close env socks w :
  for_each socks (shutdown_finally_close env) w =
  (Return tt, {| self := self w; objects := objects w;
                 trace := trace w ++ closing socks |}).
Proof.
  revert w. induction socks as [|s socks IH]; intros w; simpl.
  - unfold ret, closing. simpl. rewrite app_nil_r. by destruct w.
  - unfold bind. rewrite shutdown_finally_close_eq, IH. simpl.
    by rewrite <- app_assoc.
Qed.

(** [close] on a session without client, step by step. *)
Lemma close_no_clients Message env send_close w :
  __clients_socks (self w) = ∅ →
  let t := self w in
  let t1 := emptied t in
  let tr1 := trace w ++ closing (__server_socks t) in
  let done_ tr :=
    (Return tt, {| self := set_peer None (set_tunnel_uid PNone t1);
                   objects := objects w; trace := tr |}) in
  close Message env send_close w =
  match send_close, __peer t with
  | true, Some p =>
      let asked := tr1 ++ [ev_Message "herald/tunnel/close" (close_content t)] in
      match Message "herald/tunnel/close" (close_content t) with
      | Return msg =>
          if fire_raises env (Some p) msg then
            (Raise HeraldException,
             {| self := t1; objects := objects w;
                trace := asked ++ [ev_herald_fire (Some p) msg] |})
          else done_ (asked ++ [ev_herald_fire (Some p) msg])
      | Raise e =>
          (Raise e, {| self := t1; objects := objects w; trace := asked |})
      end
  | _, _ => done_ tr1
  end.
Proof.
  intros Hc. simpl.
  unfold close, close_server_sockets, close_client_sockets,
    send_close_message, new_Message, herald_fire, close_content, emptied.
  unfold bind, get, modify, emit, ret, raise. simpl.
  rewrite for_each_shutdown_finally_close. simpl.
  rewrite Hc, elements_empty. simpl.
  destruct (self w) as [pe tu ss C n ls sl ru]; simpl in *.
  destruct send_close, pe as [p|]; simpl; try done.
  destruct (Message _ _) as [msg|e]; simpl; [|done].
  destruct (fire_raises env (Some p) msg); simpl; by rewrite <- ?app_assoc.
Qed.

(** With a constructor that takes a subject and a content, [close(True)]
    on a linked session without client fires exactly one [close] message,
    which carries the tunnel uid, and [close(False)] fires none. *)
Lemma close_expected env send_close w :
  __clients_socks (self w) = ∅ →
  fired (events_since w (close Message_expected env send_close w).2) =
  match send_close, __peer (self w) with
  | true, Some _ =>
      [{| beans._subject := PStr "herald/tunnel/close";
          beans._content := PDict (close_content (self w)) |}]
  | _, _ => []
  end.
Proof.
  intros Hc. rewrite close_no_clients by done. simpl.
  destruct send_close, (__peer (self w)) as [p|]; simpl;
    try (since; induction (__server_socks (self w)); by simpl).
  unfold Message_expected.
  destruct (fire_raises env _ _); since; unfold fired;
    rewrite !omap_app; simpl;
    (induction (__server_socks (self w)); [done|by simpl]).
Qed.

(** C7 (what the code does). With the bean as it is, [close(True)] on a
    linked session without client closes the server sockets and empties the
    lists, then raises [TypeError] where it builds the [close] message:
    nothing is fired, and the tunnel uid and the peer are not cleared. *)
Theorem C7_close_raises_before_firing :
  ∀ env w p,
    __clients_socks (self w) = ∅ →
    __peer (self w) = Some p →
    let '(r, w') := close beans.Message_call env true w in
    r = Raise (TypeError "__init__() missing required positional argument") ∧
    heralded (events_since w w') = [] ∧
    fired (events_since w w') = [] ∧
    __peer (self w') = Some p ∧
    __tunnel_uid (self w') = __tunnel_uid (self w).
Proof.
  intros env w p Hc Hp. rewrite close_no_clients by done. simpl.
  rewrite Hp. rewrite ?Message_call_raises. simpl. split; [done|].
  since. unfold heralded, fired. rewrite List.filter_app, omap_app. simpl.
  rewrite !app_nil_r.
  destruct (self w) as [pe tu ss C n ls sl ru]; simpl in *.
  repeat split; try done; induction ss; by simpl.
Qed.

Lemma C7_witness :
  let '(r, w') := close beans.Message_call env_ok true linked in
  r = Raise (TypeError "__init__() missing required positional argument") ∧
  heralded (events_since linked w') = [] ∧
  fired (events_since linked w') = [] ∧
  __peer (self w') = Some "peer-out" ∧
  __tunnel_uid (self w') = PStr "tunnel-1".
Proof.
  exact (C7_close_raises_before_firing env_ok linked "peer-out"
           eq_refl eq_refl).
Defined.

(** With the bean as it is, whatever the first call of [close] did, a
    second call makes no socket call and fires nothing. *)
Lemma close_twice_as_written calls env1 env2 send_close1 send_close2 :
  let w := run beans.Message_call calls initial in
  let w1 := (close beans.Message_call env1 send_close1 w).2 in
  let w2 := (close beans.Message_call env2 send_close2 w1).2 in
  socket_ops (events_since w1 w2) = [] ∧ heralded (events_since w1 w2) = [].
Proof.
  intros w w1 w2.
  destruct (no_link_reachable calls) as (Hc & _). fold w in Hc.
  assert (H1 : __clients_socks (self w1) = ∅ ∧ __server_socks (self w1) = []).
  { subst w1. rewrite close_no_clients by done. simpl.
    destruct send_close1, (__peer (self w)); simpl;
      rewrite ?Message_call_raises; by destruct (self w). }
  destruct H1 as [Hc1 Hs1]. subst w2.
  rewrite close_no_clients by done. simpl. rewrite Hs1.
  destruct send_close2, (__peer (self w1)); simpl;
    rewrite ?Message_call_raises; since; by rewrite ?app_nil_r.
Qed.

(** ** Accepting a client that the peer does not take *)

(** The content of the [create_link] message. *)
Lemma create_link_content_id t i :
  create_link_id
    (ev_Message "herald/tunnel/create_link"
       (<["tunnel" := __tunnel_uid t]> (<["link_id" := PInt i]> ∅))) = Some i.
Proof. simpl. by rewrite lookup_insert_ne, lookup_insert_eq. Qed.

(** Unless the peer answers with a true [success], [_on_accept] leaves the
    link table as it is: the socket and its id are in neither map and the
    socket is not polled. *)
Lemma _on_accept_not_registered Message env server_sock w :
  let t := self w in
  let content :=
    <["tunnel" := __tunnel_uid t]> (<["link_id" := PInt (__next_id t)]> ∅) in
  match Message "herald/tunnel/create_link" content with
  | Return msg =>
      match send_reply env (__peer t) msg with
      | Some (PDict d) =>
          match d !! "success" with
          | Some v => truthy v = false
          | None => True
          end
      | _ => True
      end
  | Raise _ => True
  end →
  let w' := (_on_accept Message env server_sock w).2 in
  __link_sock (self w') = __link_sock t ∧
  __sock_link (self w') = __sock_link t ∧
  __clients_socks (self w') = __clients_socks t.
Proof.
  simpl. intros H. run_method.
  destruct (accept_raises env server_sock); simpl; [done|].
  destruct (Message _ _) as [msg|e]; simpl; [|done].
  destruct (send_reply env _ msg) as [[| | | |d]|]; simpl;
    try done; try (by destruct (shutdown_raises env _)).
  destruct (d !! "success") as [v|]; simpl; [|done].
  rewrite H. simpl.
  destruct (d !! "message"); simpl; [|done].
  by destruct (shutdown_raises env _).
Qed.

(** When the peer rejects the link, the client socket is closed even if
    its shutdown fails: the [finally] clause of lines 254-259. *)
Lemma rejected_link_is_closed server_sock w :
  let w' := (_on_accept Message_expected env_rejected server_sock w).2 in
  events_since w w' =
  [ev_accept server_sock;
   ev_Message "herald/tunnel/create_link"
     (<["tunnel" := __tunnel_uid (self w)]>
        (<["link_id" := PInt (__next_id (self w))]> ∅));
   ev_herald_send (__peer (self w))
     {| beans._subject := PStr "herald/tunnel/create_link";
        beans._content :=
          PDict (<["tunnel" := __tunnel_uid (self w)]>
                   (<["link_id" := PInt (__next_id (self w))]> ∅)) |};
   ev_log ERROR "Error creating remote link: %s";
   ev_shutdown (objects w); ev_close (objects w)].
Proof.
  run_method. rewrite lookup_insert_eq. simpl.
  rewrite lookup_insert_ne, lookup_insert_eq by done. simpl. by since.
Qed.

(** When the RPC raises [HeraldException] and the shutdown of the client
    socket raises [IOError], [_on_accept] returns without a call of
    [close] on the socket it accepted: in the exception branch the close
    is in an [else] clause (lines 264-269), where the failure-reply branch
    has a [finally].  This holds whatever [beans.Message] is bound to; the
    socket is not registered either. *)
Lemma exception_branch_skips_close Message server_sock w :
  let w' := (_on_accept Message env_unreachable server_sock w).2 in
  (ev_accept server_sock ∈ events_since w w') ∧
  (ev_close (objects w) ∉ events_since w w') ∧
  objects w' = S (objects w) ∧
  __clients_socks (self w') = __clients_socks (self w) ∧
  __link_sock (self w') = __link_sock (self w) ∧
  __sock_link (self w') = __sock_link (self w).
Proof.
  run_method.
  destruct (Message _ _) as [msg|e]; simpl; since;
    (split; [set_solver|]); (split; [|done]);
    rewrite list_elem_of_In; simpl; intuition discriminate.
Qed.

(** ** The data plane *)

(** With the bean as it is, [_on_recv] on a registered socket raises
    [TypeError] where it builds the [data] message: it asks for a message
    with the encoded chunk, but fires nothing. *)
Lemma _on_recv_raises_as_written env clt_sock data w :
  let '(r, w') := _on_recv beans.Message_call env clt_sock data w in
  fired (events_since w w') = [] ∧ heralded (events_since w w') = [] ∧
  self w' = self w ∧
  r = match __sock_link (self w) !! clt_sock with
      | Some _ =>
          Raise (TypeError "__init__() missing required positional argument")
      | None => Return tt
      end.
Proof.
  run_method.
  destruct (__sock_link (self w) !! clt_sock); simpl; by since.
Qed.

(** With a constructor that takes a subject and a content, one chunk
    becomes one [data] message. *)
Lemma _on_recv_expected env clt_sock link_id data w :
  __sock_link (self w) !! clt_sock = Some link_id →
  _on_recv Message_expected env clt_sock data w =
  (Return tt, {| self := self w; objects := objects w;
                 trace := trace w ++ relayed env (self w) link_id data |}).
Proof.
  intros Hl. run_method. rewrite Hl. simpl. unfold relayed, data_content.
  destruct (fire_raises env _ _); simpl; by rewrite <- ?app_assoc.
Qed.

Lemma fired_app tr1 tr2 : fired (tr1 ++ tr2) = fired tr1 ++ fired tr2.
Proof. apply omap_app. Qed.

Lemma fired_relayed env t link_id data :
  decoded_payload <$> fired (relayed env t link_id data) = [Some data].
Proof.
  unfold relayed. destruct (fire_raises env _ _); simpl;
    unfold decoded_payload, data_content; simpl;
    rewrite lookup_insert_ne, lookup_insert_ne, lookup_insert_eq by done;
    by rewrite payload_roundtrip.
Qed.

(** The chunks read one after the other on a link arrive as that many
    messages, in order, and their decoded payloads are the chunks. *)
Lemma chunks_relayed env clt_sock link_id chunks w :
  __sock_link (self w) !! clt_sock = Some link_id →
  let '(r, w') :=
    for_each chunks (_on_recv Message_expected env clt_sock) w in
  r = Return tt ∧ self w' = self w ∧
  decoded_payload <$> fired (events_since w w') = Some <$> chunks.
Proof.
  intros Hl.
  assert (H : ∃ tr,
    for_each chunks (_on_recv Message_expected env clt_sock) w =
      (Return tt, {| self := self w; objects := objects w;
                     trace := trace w ++ tr |}) ∧
    decoded_payload <$> fired tr = Some <$> chunks).
  { revert w Hl. induction chunks as [|data chunks IH]; intros w Hl; simpl.
    - exists []. rewrite app_nil_r. by destruct w.
    - unfold bind. rewrite (_on_recv_expected _ _ link_id) by done.
      destruct (IH {| self := self w; objects := objects w;
                      trace := trace w ++ relayed env (self w) link_id data |}
                  Hl) as (tr & -> & Htr).
      exists (relayed env (self w) link_id data ++ tr).
      split; [simpl; by rewrite <- app_assoc|].
      by rewrite fired_app, fmap_app, fired_relayed, Htr. }
  destruct H as (tr & -> & Htr). by since.
Qed.

(** The payload of a client that spans several reads is the concatenation
    of what the messages carry. *)
Lemma payload_relayed env clt_sock link_id chunks w :
  __sock_link (self w) !! clt_sock = Some link_id →
  let w' := (for_each chunks (_on_recv Message_expected env clt_sock) w).2 in
  mjoin <$> mapM decoded_payload (fired (events_since w w')) =
  Some (mjoin chunks).
Proof.
  intros Hl. pose proof (chunks_relayed env clt_sock link_id chunks w Hl) as H.
  destruct (for_each _ _ w) as [r w']. destruct H as (_ & _ & H). simpl.
  assert (Hm : mapM decoded_payload (fired (events_since w w')) = Some chunks).
  { apply mapM_Some. revert H. generalize (fired (events_since w w')).
    induction chunks as [|c chunks IH]; intros [|m ms]; simpl; try done.
    intros [= Hm Hms]. constructor; [done|by apply IH]. }
  by rewrite Hm.
Qed.

(** [send] writes the decoded bytes of its argument on the socket of the
    link. *)
Lemma send_writes_decoded env link_id s data w :
  __link_sock (self w) !! link_id = Some s →
  (send env link_id (to_str (base64.b64encode data)) w).2 =
  {| self := self w; objects := objects w;
     trace := trace w ++ [ev_sock_send s data] |}.
Proof.
  intros Hl. unfold send, sock_send, bind, get, emit, ret, raise. simpl.
  rewrite Hl, payload_roundtrip. by destruct (sock_send_raises env s).
Qed.




(** ** Binding the server sockets *)

Lemma setup_candidate_eq env info w :
  setup_candidate env info w =
  (Return tt,
   {| self :=
        set_server_socks
          (__server_socks (self w) ++ bound_sockets env [info] (objects w))
          (self w);
      objects := candidate_next env info (objects w);
      trace := trace w ++ candidate_events env info (objects w) |}).
Proof.
  unfold setup_candidate, create_and_bind, candidate_events, candidate_next,
    logger_error, try_except_else, bind, emit, modify, new_object, ret, raise.
  simpl.
  destruct w as [[pe tu ss C n ls sl ru] o tr]; simpl.
  destruct (fails_at env info) as [[]|]; simpl;
    rewrite <- ?app_assoc, ?app_nil_r; reflexivity.
Qed.

Lemma for_each_setup_candidate env infos w :
  for_each infos (setup_candidate env) w =
  (Return tt,
   {| self :=
        set_server_socks
          (__server_socks (self w) ++ bound_sockets env infos (objects w))
          (self w);
      objects := next_object env infos (objects w);
      trace := trace w ++ binding env infos (objects w) |}).
Proof.
  revert w. induction infos as [|info infos IH]; intros w; simpl.
  - unfold ret. rewrite !app_nil_r. by destruct w as [[] ? ?].
  - unfold bind. rewrite setup_candidate_eq, IH. simpl.
    rewrite app_nil_r, <- !app_assoc. by destruct (self w).
Qed.

(** [setup], step by step. *)
Lemma setup_eq env address port type w :
  setup env address port type w =
  let asked := trace w ++ [ev_getaddrinfo address port type] in
  match getaddrinfo env address port type with
  | Raise e =>
      (Raise e, {| self := self w; objects := objects w; trace := asked |})
  | Return infos =>
      let socks :=
        __server_socks (self w) ++ bound_sockets env infos (objects w) in
      (match socks with [] => Raise BindError | _ :: _ => Return true end,
       {| self := set_server_socks socks (self w);
          objects := next_object env infos (objects w);
          trace := asked ++ binding env infos (objects w) |})
  end.
Proof.
  unfold setup, bind, emit, get, raise, ret. simpl.
  destruct (getaddrinfo env address port type) as [infos|e]; [|done].
  rewrite for_each_setup_candidate. simpl.
  by destruct (__server_socks (self w) ++ _).
Qed.

Lemma bound_sockets_nil env infos o :
  bound_sockets env infos o = [] ↔
  Forall (λ info, fails_at env info ≠ None) infos.
Proof.
  revert o. induction infos as [|info infos IH]; intros o; simpl.
  - split; [constructor|done].
  - rewrite Forall_cons, <- IH.
    destruct (fails_at env info); simpl; naive_solver.
Qed.

Lemma bound_sockets_Exists env infos o :
  bound_sockets env infos o ≠ [] →
  Exists (λ info, fails_at env info = None) infos.
Proof.
  revert o. induction infos as [|info infos IH]; intros o; simpl; [done|].
  destruct (fails_at env info) eqn:Hf; simpl.
  - intros H. apply Exists_cons_tl. by apply IH in H.
  - intros _. by apply Exists_cons_hd.
Qed.

Lemma bound_sockets_length env infos o :
  length (bound_sockets env infos o) =
  length (List.filter (λ info, bool_decide (fails_at env info = None)) infos).
Proof.
  revert o. induction infos as [|info infos IH]; intros o; simpl; [done|].
  rewrite length_app, IH. by destruct (fails_at env info).
Qed.

Lemma errors_logged_binding env infos o :
  length (errors_logged (binding env infos o)) =
  length (List.filter (λ info, bool_decide (fails_at env info ≠ None)) infos).
Proof.
  revert o. induction infos as [|info infos IH]; intros o; simpl; [done|].
  unfold errors_logged in *. rewrite List.filter_app, length_app, IH.
  unfold candidate_events. by destruct (fails_at env info) as [[]|].
Qed.

(** C4 (amended). What [setup] lets escape is what the resolver raises,
    before any candidate is tried, and the [socket.error] for no bound
    socket; nothing else.  Once the address is resolved, each candidate
    that fails is logged and skipped, and the sockets of the others are
    added to those of the session; [setup] raises the error exactly when
    the session held no server socket and no candidate could be created,
    bound and listened, and returns [True] otherwise. *)
Theorem C4_setup_errors :
  ∀ env address port type w,
    let '(r, w') := setup env address port type w in
    match getaddrinfo env address port type with
    | Raise e =>
        r = Raise e ∧ self w' = self w ∧
        events_since w w' = [ev_getaddrinfo address port type]
    | Return infos =>
        (r = Raise BindError ∨ r = Return true) ∧
        (r = Raise BindError ↔
         __server_socks (self w) = [] ∧
         Forall (λ info, fails_at env info ≠ None) infos) ∧
        (r = Return true ↔
         __server_socks (self w) ≠ [] ∨
         Exists (λ info, fails_at env info = None) infos) ∧
        (∃ socks,
           __server_socks (self w') = __server_socks (self w) ++ socks ∧
           length socks =
           length (List.filter
                     (λ info, bool_decide (fails_at env info = None)) infos)) ∧
        length (errors_logged (events_since w w')) =
        length (List.filter
                  (λ info, bool_decide (fails_at env info ≠ None)) infos)
    end.
Proof.
  intros env address port type w. rewrite setup_eq. simpl.
  destruct (getaddrinfo env address port type) as [infos|e].
  2: { split; [done|]. split; [done|]. by since. }
  pose proof (bound_sockets_nil env infos (objects w)) as Hnil.
  pose proof (bound_sockets_length env infos (objects w)) as Hlen.
  pose proof (bound_sockets_Exists env infos (objects w)) as Hex.
  assert (Hno : Exists (λ info, fails_at env info = None) infos →
                bound_sockets env infos (objects w) ≠ []).
  { intros (info & Hin & Hinfo)%Exists_exists Hb.
    apply Hnil in Hb. rewrite Forall_forall in Hb. by destruct (Hb info Hin). }
  split; [|split; [|split; [|split]]].
  - destruct (__server_socks (self w) ++ _); by auto.
  - destruct (__server_socks (self w)) as [|s socks]; simpl.
    + rewrite <- Hnil.
      destruct (bound_sockets env infos (objects w)); naive_solver.
    + naive_solver.
  - destruct (__server_socks (self w)) as [|s socks]; simpl.
    + destruct (bound_sockets env infos (objects w)) eqn:Hb;
        [|by split; [right; apply Hex|]].
      split; [done|]. intros [?|?]; [done|]. by destruct Hno.
    + split; [by left|done].
  - exists (bound_sockets env infos (objects w)).
    split; [by destruct (self w)|done].
  - since. unfold errors_logged. simpl.
    apply (errors_logged_binding env infos (objects w)).
Qed.

(** The claim as stated fails in two ways: an error other than [BindError]
    escapes from [setup] when the address cannot be resolved, and on a
    session that already holds a server socket [setup] returns [True]
    although none of the candidates could be bound. *)
Lemma C4_counterexample :
  ¬ (∀ env address port type w e,
       (setup env address port type w).1 = Raise e → e = BindError) ∧
  ¬ (∀ env address port type w infos,
       getaddrinfo env address port type = Return infos →
       Forall (λ info, fails_at env info ≠ None) infos →
       (setup env address port type w).1 = Raise BindError).
Proof.
  split.
  - intros H.
    by specialize (H env_unresolved "nohost" 80 SOCK_STREAM initial
                     socket_gaierror eq_refl).
  - intros H.
    specialize (H env_unbindable "localhost" 8080 SOCK_STREAM linked _ eq_refl).
    rewrite setup_eq in H. simpl in H.
    assert (Return true = Raise BindError) as Hr; [|done].
    apply H. repeat constructor; done.
Qed.

(** The resolver also raises errors that are not [socket.gaierror]: a
    host name with a label of more than 63 characters cannot be encoded,
    and the [UnicodeError] escapes from [setup] as well. *)
Lemma setup_lets_UnicodeError_escape :
  (setup env_unencodable
     "aaaaaaaaaaaaaaaaaaaaaaaaaaaaaaaaaaaaaaaaaaaaaaaaaaaaaaaaaaaaaaaa" 80
     SOCK_STREAM initial).1 =
  Raise (UnicodeError "encoding with 'idna' codec failed").
Proof. reflexivity. Qed.

(** What the list of candidates decides is decided by which step fails
    for each, not by their family or type. *)
Lemma binding_uniform env infos1 infos2 o :
  fails_at env <$> infos1 = fails_at env <$> infos2 →
  bound_sockets env infos1 o = bound_sockets env infos2 o ∧
  next_object env infos1 o = next_object env infos2 o ∧
  steps_of <$> binding env infos1 o = steps_of <$> binding env infos2 o.
Proof.
  revert infos2 o.
  induction infos1 as [|i1 infos1 IH]; intros [|i2 infos2] o; simpl;
    try done.
  intros [= Hf Hfs]. unfold candidate_next, candidate_events. rewrite Hf.
  destruct (IH infos2 (match fails_at env i2 with
                       | Some do_socket => o | _ => S o end) Hfs)
    as (Hb & Hn & Hs).
  rewrite Hb, Hn, !fmap_app, Hs.
  by destruct (fails_at env i2) as [[]|].
Qed.

(** [setup] hands the type to the resolver and to [socket.socket] and does
    not look at it otherwise.  For an address on which the candidates of a
    datagram resolution fail or succeed as those of a stream resolution
    do, the two calls end alike, retain the same sockets and take the same
    steps (create, set the option, bind, listen with a backlog of 10, log
    a failure). *)
Lemma setup_takes_the_same_steps env address port w infos_s infos_d :
  getaddrinfo env address port SOCK_STREAM = Return infos_s →
  getaddrinfo env address port SOCK_DGRAM = Return infos_d →
  fails_at env <$> infos_d = fails_at env <$> infos_s →
  let '(rs, ws) := setup env address port SOCK_STREAM w in
  let '(rd, wd) := setup env address port SOCK_DGRAM w in
  rd = rs ∧ self wd = self ws ∧ objects wd = objects ws ∧
  steps_of <$> trace wd = steps_of <$> trace ws.
Proof.
  intros Hs Hd Hf.
  rewrite !setup_eq. cbv zeta. rewrite Hs, Hd.
  destruct (binding_uniform env infos_d infos_s (objects w) Hf)
    as (Hb & Hn & Hst).
  simpl. by rewrite Hb, Hn, !fmap_app, Hst.
Qed.

(** A candidate that fails at [listen] has been created and bound, and
    [listen] has been called on its socket. *)
Lemma binding_listen env infos o info :
  info ∈ infos → fails_at env info = Some do_listen →
  ∃ s, ev_listen s 10 ∈ binding env infos o.
Proof.
  revert o. induction infos as [|i infos IH]; intros o Hin Hf; simpl.
  - by apply elem_of_nil in Hin.
  - apply elem_of_cons in Hin as [<-|Hin].
    + exists o. unfold candidate_events. rewrite Hf. set_solver.
    + destruct (IH (candidate_next env i o) Hin Hf) as [s Hs].
      exists s. set_solver.
Qed.

(** C5 (what the code does). [setup] calls [listen] on the socket of every
    candidate, whatever its type (line 124), and [listen] raises on a
    datagram socket.  So where the candidates of a datagram resolution are
    datagram sockets and none of them gets through [listen], each one is
    tried, logged and skipped, no socket is kept, and on a session without
    server socket [setup] raises the error for no bound socket; the stream
    call on the same session returns [True] as soon as one of its
    candidates can be bound. *)
Theorem C5_datagram_setup_raises :
  ∀ env address port w infos,
    __server_socks (self w) = [] →
    getaddrinfo env address port SOCK_DGRAM = Return infos →
    Forall (λ info, ai_socktype info = SOCK_DGRAM) infos →
    (∀ info, ai_socktype info = SOCK_DGRAM → fails_at env info ≠ None) →
    let '(rd, wd) := setup env address port SOCK_DGRAM w in
    rd = Raise BindError ∧
    __server_socks (self wd) = [] ∧
    length (errors_logged (events_since w wd)) = length infos ∧
    (∀ info, info ∈ infos → fails_at env info = Some do_listen →
             ∃ s, ev_listen s 10 ∈ events_since w wd) ∧
    (∀ infos_s,
       getaddrinfo env address port SOCK_STREAM = Return infos_s →
       Exists (λ info, fails_at env info = None) infos_s →
       (setup env address port SOCK_STREAM w).1 = Return true).
Proof.
  intros env address port w infos Hs Hd Htype Hlisten.
  assert (Hfail : Forall (λ info, fails_at env info ≠ None) infos).
  { eapply Forall_impl; [exact Htype|]. intros info. apply Hlisten. }
  rewrite !setup_eq. cbv zeta. rewrite Hd, Hs. simpl.
  rewrite (proj2 (bound_sockets_nil env infos (objects w)) Hfail). simpl.
  split; [done|]. split; [done|]. split; [|split].
  - since.
    etransitivity;
      [unfold errors_logged; simpl;
       apply (errors_logged_binding env infos (objects w))|].
    clear -Hfail. induction Hfail as [|info infos Hi _ IH]; simpl; [done|].
    rewrite bool_decide_eq_true_2 by done. simpl. by rewrite IH.
  - intros info Hin Hf. since.
    destruct (binding_listen env infos (objects w) info Hin Hf) as [s Hev].
    exists s. set_solver.
  - intros infos_s Hss Hex. rewrite Hss. simpl.
    destruct (bound_sockets env infos_s (objects w)) eqn:Hb; [|done].
    apply bound_sockets_nil in Hb.
    apply Exists_exists in Hex as (info & Hin & Hinfo).
    rewrite Forall_forall in Hb. by destruct (Hb info Hin).
Qed.

(** A new session on a system where [listen] is for stream sockets only:
    the datagram call raises where the stream call returns [True]. *)
Lemma C5_witness :
  (setup env_posix "127.0.0.1" 8080 SOCK_DGRAM initial).1 = Raise BindError ∧
  (setup env_posix "127.0.0.1" 8080 SOCK_STREAM initial).1 = Return true.
Proof.
  assert (Hl : ∀ info, ai_socktype info = SOCK_DGRAM →
                       fails_at env_posix info ≠ None).
  { intros info Hi. simpl. by rewrite Hi. }
  assert (Ht : Forall (λ info, ai_socktype info = SOCK_DGRAM)
                 [{| ai_family := 2; ai_socktype := SOCK_DGRAM; ai_proto := 0;
                     ai_sockaddr := ("127.0.0.1", 8080) |}]).
  { by repeat constructor. }
  pose proof (C5_datagram_setup_raises env_posix "127.0.0.1" 8080 initial _
                eq_refl eq_refl Ht Hl) as H.
  destruct (setup env_posix "127.0.0.1" 8080 SOCK_DGRAM initial) as [rd wd].
  destruct H as (Hr & _ & _ & _ & Hstream).
  split; [done|]. apply (Hstream _ eq_refl).
  apply Exists_cons_hd. reflexivity.
Defined.

(** ** A client that the peer does not take is closed *)

(** In a session, the sockets that the instance refers to were made
    before: the server sockets by [setup], the others by [accept]. *)
Section Sockets.
Variable Message : string → dict → result beans.Message.
Variable env : Env.

Lemma made_emit e : keeps made (emit e).
Proof. by intros w Hw. Qed.

Lemma made_new_object : keeps made new_object.
Proof. intros w Hw s Hs. specialize (Hw s Hs). simpl. lia. Qed.

Lemma made_modify f :
  (∀ t, __server_socks (f t) = __server_socks t ∨ __server_socks (f t) = []) →
  keeps made (modify f).
Proof.
  intros Hf w Hw s. simpl. destruct (Hf (self w)) as [-> | ->]; [apply Hw|].
  by intros ?%elem_of_nil.
Qed.

Ltac leaf :=
  lazymatch goal with
  | |- keeps _ (emit _) => apply made_emit
  | |- keeps _ new_object => apply made_new_object
  | |- keeps _ (modify _) => apply made_modify; intros []; simpl; by auto
  | |- keeps _ (if ?b then _ else _) => destruct b eqn:?
  | |- _ => keeps_step
  end.

Lemma made_shutdown_finally_close s : keeps made (shutdown_finally_close env s).
Proof.
  unfold shutdown_finally_close, sock_shutdown, sock_close. repeat leaf.
Qed.

Lemma made__on_close clt_sock : keeps made (_on_close Message env clt_sock).
Proof.
  unfold _on_close, unregister, new_Message, herald_fire, logger_error.
  repeat leaf; apply made_shutdown_finally_close.
Qed.

Lemma made__on_accept server_sock :
  keeps made (_on_accept Message env server_sock).
Proof.
  unfold _on_accept, sock_accept, allocate, new_Message, create_link,
    register, herald_send, shutdown_else_close, sock_shutdown, sock_close,
    logger_error.
  repeat leaf; apply made_shutdown_finally_close.
Qed.

Lemma made__on_recv clt_sock data :
  keeps made (_on_recv Message env clt_sock data).
Proof.
  unfold _on_recv, new_Message, herald_fire, logger_warning, logger_error.
  repeat leaf.
Qed.

Lemma made_setup address port type : keeps made (setup env address port type).
Proof.
  intros w Hw. rewrite setup_eq. cbv zeta.
  assert (H : ∀ infos o socks,
            (∀ s, s ∈ socks → (s < o)%nat) →
            (o ≤ next_object env infos o)%nat ∧
            ∀ s, s ∈ socks ++ bound_sockets env infos o →
                 (s < next_object env infos o)%nat).
  { induction infos as [|info infos IH]; intros o socks Hsocks; simpl.
    - split; [lia|]. rewrite app_nil_r. apply Hsocks.
    - destruct (IH (candidate_next env info o)
                  (socks ++ match fails_at env info with
                            | None => [o] | Some _ => [] end)) as [Hle Hlt].
      { intros s [Hs|Hs]%elem_of_app.
        - specialize (Hsocks s Hs). unfold candidate_next.
          destruct (fails_at env info) as [[]|]; lia.
        - unfold candidate_next.
          destruct (fails_at env info) as [[]|]; set_solver by lia. }
      split.
      + assert (o ≤ candidate_next env info o)%nat; [|lia].
        unfold candidate_next. destruct (fails_at env info) as [[]|]; lia.
      + intros s Hs. apply Hlt. by rewrite <- app_assoc. }
  destruct (getaddrinfo env address port type) as [infos|e].
  - destruct (H infos (objects w) (__server_socks (self w)) Hw) as [_ Hlt].
    assert (made
      {| self := set_server_socks
                   (__server_socks (self w) ++
                    bound_sockets env infos (objects w)) (self w);
         objects := next_object env infos (objects w);
         trace := (trace w ++ [ev_getaddrinfo address port type]) ++
                  binding env infos (objects w) |}) by exact Hlt.
    by destruct (__server_socks (self w) ++ _).
  - exact Hw.
Qed.

Lemma made_perform c : keeps made (perform Message env c).
Proof.
  destruct c; simpl.
  - apply keeps_bind; [apply made_setup|intros; apply keeps_ret].
  - unfold link. repeat leaf.
  - unfold close, close_server_sockets, close_client_sockets,
      send_close_message, new_Message, herald_fire.
    repeat leaf; auto using made_shutdown_finally_close, made__on_close.
  - unfold send, sock_send, logger_error. repeat leaf.
  - unfold read_once, dispatch, sock_recv, logger_error.
    repeat leaf;
      auto using made__on_accept, made__on_close, made__on_recv.
  - apply made__on_accept.
  - apply made__on_close.
  - apply made__on_recv.
Qed.
End Sockets.

Lemma created_of_made w : well_formed w → made w → created w.
Proof.
  intros [[Hinv Hcl] (_ & _ & Hobj)] Hm s [Hs|[Hs|[Hs|[i Hs]]]].
  - by apply Hm.
  - by apply Hobj.
  - apply Hobj, Hcl, Hs.
  - apply Hobj, Hcl. exists i. by apply Hinv.
Qed.

(** Every state that a session reaches is such. *)
Lemma created_reachable Message calls : created (run Message calls initial).
Proof.
  apply created_of_made.
  - apply keeps_run; [|apply well_formed_initial].
    intros. apply well_formed_perform.
  - apply keeps_run; [intros; apply made_perform|].
    by intros s ?%elem_of_nil.
Qed.


Lemma well_formed_three_links : well_formed three_links.
Proof.
  unfold well_formed, allocated, LinkTable_inv, lookupByConnection,
    lookupById. simpl. split; [split|split; [done|split]].
  - intros c i. rewrite !lookup_insert, !lookup_empty.
    repeat case_decide; subst; naive_solver lia.
  - intros c. rewrite !lookup_insert, lookup_empty.
    repeat case_decide; subst; split; try set_solver; eauto;
      intros [? ?]; done.
  - intros i c. rewrite !lookup_insert, lookup_empty.
    repeat case_decide; subst; try done; lia.
  - intros c. set_solver by lia.
Qed.



(** * Further properties of the tunnel entry *)

(** ** [send] *)

(** X1.  [send] on a link id that is not in the table logs an error and
    returns: no socket is written to and the instance does not change. *)
Theorem send_unknown_link :
  ∀ env link_id data w,
    __link_sock (self w) !! link_id = None →
    let '(r, w') := send env link_id data w in
    r = Return tt ∧ self w' = self w ∧ socket_ops (events_since w w') = [] ∧
    events_since w w' = [ev_log ERROR "No socket associated to link %s"].
Proof.
  intros env link_id data w Hl.
  unfold send, logger_error, bind, get, emit. simpl. rewrite Hl. by since.
Qed.

Lemma send_unknown_link_witness :
  let '(r, w') := send env_ok 7 "aGVsbG8=" three_links in
  r = Return tt ∧ self w' = self three_links.
Proof.
  pose proof (send_unknown_link env_ok 7 "aGVsbG8=" three_links eq_refl) as H.
  destruct (send env_ok 7 "aGVsbG8=" three_links) as [r w'].
  by destruct H as (? & ? & _).
Defined.

(** X2.  What [_on_recv] puts in a [data] message for a chunk, [send]
    writes back as that chunk: the text asked for the message, given to
    [send] for a registered link, is one write of exactly the bytes read,
    on the socket of that link, and the instance does not change. *)
Theorem recv_payload_is_sent_back :
  ∀ Message env env' clt_sock link_id data w link_id' s w2,
    __sock_link (self w) !! clt_sock = Some link_id →
    __link_sock (self w2) !! link_id' = Some s →
    ∃ content text,
      ev_Message "herald/tunnel/data" content ∈
        events_since w (_on_recv Message env clt_sock data w).2 ∧
      content !! "link_id" = Some (PInt link_id) ∧
      payload_text content = Some text ∧
      let w2' := (send env' link_id' text w2).2 in
      events_since w2 w2' = [ev_sock_send s data] ∧ self w2' = self w2.
Proof.
  intros Message env env' clt_sock link_id data w link_id' s w2 Hl Hs.
  exists (data_content (self w) link_id data),
    (to_str (base64.b64encode data)).
  split; [|split; [|split]].
  - run_method. rewrite Hl. simpl. unfold data_content.
    destruct (Message _ _) as [msg|e]; simpl;
      [destruct (fire_raises env _ _); simpl|]; since; set_solver.
  - unfold data_content. by rewrite lookup_insert_ne, lookup_insert_eq.
  - unfold payload_text, data_content.
    by rewrite lookup_insert_ne, lookup_insert_ne, lookup_insert_eq.
  - rewrite (send_writes_decoded env' link_id' s) by done. by since.
Qed.

Lemma recv_payload_is_sent_back_witness :
  ∃ content text,
    ev_Message "herald/tunnel/data" content ∈
      events_since three_links
        (_on_recv beans.Message_call env_ok 2%nat ["h"; "i"]%byte three_links).2 ∧
    content !! "link_id" = Some (PInt 1) ∧
    payload_text content = Some text ∧
    let w2' := (send env_ok 1 text three_links).2 in
    events_since three_links w2' = [ev_sock_send 2%nat ["h"; "i"]%byte] ∧
    self w2' = self three_links.
Proof.
  exact (recv_payload_is_sent_back beans.Message_call env_ok env_ok 2%nat 1
           ["h"; "i"]%byte three_links 1 2%nat three_links eq_refl eq_refl).
Defined.

(** ** [_on_recv] and [_on_accept]: the paths that give up *)

(** X3.  [_on_recv] on a socket that has no link logs a warning and
    returns: no message is built or fired and the instance does not
    change. *)
Theorem _on_recv_unknown_socket :
  ∀ Message env clt_sock data w,
    __sock_link (self w) !! clt_sock = None →
    _on_recv Message env clt_sock data w =
    (Return tt,
     {| self := self w; objects := objects w;
        trace := trace w ++ [ev_log WARNING "Unknown client socket"] |}).
Proof.
  intros Message env clt_sock data w Hl. run_method. by rewrite Hl.
Qed.

Lemma _on_recv_unknown_socket_witness :
  (_on_recv Message_expected env_ok 9%nat ["h"]%byte three_links).1 = Return tt.
Proof.
  by rewrite (_on_recv_unknown_socket Message_expected env_ok 9%nat
                ["h"]%byte three_links eq_refl).
Defined.

(** X4.  When [accept] raises, [_on_accept] logs the error and returns: no
    id is taken, no message is built, and the instance does not change. *)
Theorem _on_accept_accept_fails :
  ∀ Message env server_sock w,
    accept_raises env server_sock = true →
    _on_accept Message env server_sock w =
    (Return tt,
     {| self := self w; objects := objects w;
        trace := trace w ++ [ev_accept server_sock;
                             ev_log ERROR "Error accepting client: %s"] |}).
Proof.
  intros Message env server_sock w Ha. run_method. rewrite Ha. simpl.
  by rewrite <- app_assoc.
Qed.

Lemma _on_accept_accept_fails_witness :
  self (_on_accept Message_expected env_accept_fails 0%nat linked).2 =
  self linked.
Proof.
  by rewrite (_on_accept_accept_fails Message_expected env_accept_fails
                0%nat linked eq_refl).
Defined.

(** X5.  A reply of the peer that has no [success] entry, or that reports
    a failure without a [message] entry, makes [_on_accept] raise
    [KeyError]: the id is spent, and the accepted socket is neither shut
    down, nor closed, nor registered. *)
Theorem _on_accept_reply_lacks_key :
  ∀ Message env server_sock w msg d,
    accept_raises env server_sock = false →
    Message "herald/tunnel/create_link"
      (create_link_content (self w) (__next_id (self w))) = Return msg →
    send_reply env (__peer (self w)) msg = Some (PDict d) →
    (d !! "success" = None ∨
     (∃ v, d !! "success" = Some v ∧ truthy v = false) ∧
     d !! "message" = None) →
    let '(r, w') := _on_accept Message env server_sock w in
    r = Raise KeyError ∧
    self w' = set_next_id (__next_id (self w) + 1) (self w) ∧
    socket_ops (events_since w w') = [ev_accept server_sock].
Proof.
  intros Message env server_sock w msg d Ha Hm Hr Hd.
  unfold create_link_content in Hm. run_method.
  rewrite Ha. simpl. rewrite Hm. simpl. rewrite Hr. simpl.
  destruct Hd as [Hd|[(v & Hv & Ht) Hd]].
  - rewrite Hd. simpl. by since.
  - rewrite Hv. simpl. rewrite Ht. simpl. rewrite Hd. simpl. by since.
Qed.

Lemma _on_accept_reply_lacks_key_witness :
  (_on_accept Message_expected env_bare_rejection 0%nat linked).1 =
  Raise KeyError.
Proof.
  pose proof (_on_accept_reply_lacks_key Message_expected env_bare_rejection
                0%nat linked _ (<["success" := PBool false]> ∅)
                eq_refl eq_refl eq_refl) as H.
  destruct (_on_accept Message_expected env_bare_rejection 0%nat linked)
    as [r w'].
  apply H. right. split; [|done]. exists (PBool false).
  split; [|done]. apply lookup_insert_eq.
Defined.

(** ** A link from accept to close *)

(** X6.  When the peer takes the link, [_on_accept] registers the new
    socket under the id it took: each of the two lookups answers with the
    other half of the pair, the socket is polled, and the socket is left
    open. *)
Theorem accepted_link_is_registered :
  ∀ Message env server_sock w msg d v,
    accept_raises env server_sock = false →
    Message "herald/tunnel/create_link"
      (create_link_content (self w) (__next_id (self w))) = Return msg →
    send_reply env (__peer (self w)) msg = Some (PDict d) →
    d !! "success" = Some v → truthy v = true →
    let i := __next_id (self w) in
    let c := objects w in
    let '(r, w') := _on_accept Message env server_sock w in
    r = Return tt ∧
    self w' = registered i c (set_next_id (i + 1) (self w)) ∧
    objects w' = S c ∧
    lookupById (self w') i = Some c ∧
    lookupByConnection (self w') c = Some i ∧
    c ∈ __clients_socks (self w') ∧
    socket_ops (events_since w w') = [ev_accept server_sock].
Proof.
  intros Message env server_sock w msg d v Ha Hm Hr Hv Ht.
  unfold create_link_content in Hm. run_method.
  rewrite Ha. simpl. rewrite Hm. simpl. rewrite Hr. simpl.
  rewrite Hv. simpl. rewrite Ht. simpl.
  unfold lookupById, lookupByConnection.
  destruct (self w) as [pe tu ss C n ls sl ru]; simpl.
  rewrite !lookup_insert_eq. repeat split; [set_solver|by since].
Qed.

Lemma accepted_link_is_registered_witness :
  lookupById (self (_on_accept Message_expected env_ok 0%nat linked).2) 0 =
  Some 1%nat.
Proof.
  pose proof (accepted_link_is_registered Message_expected env_ok 0%nat linked
                _ (<["success" := PBool true]> ∅) (PBool true)
                eq_refl eq_refl eq_refl (lookup_insert_eq _ _ _) eq_refl) as H.
  simpl in H.
  destruct (_on_accept Message_expected env_ok 0%nat linked) as [r w'].
  by destruct H as (_ & _ & _ & H & _).
Defined.

(** What [_on_close] does on a registered socket. *)
Lemma _on_close_registered Message env clt_sock link_id w :
  clt_sock ∈ __clients_socks (self w) →
  __sock_link (self w) !! clt_sock = Some link_id →
  __link_sock (self w) !! link_id = Some clt_sock →
  let w' := (_on_close Message env clt_sock w).2 in
  self w' = unregistered link_id clt_sock (self w) ∧
  objects w' = objects w ∧
  ∃ evs,
    events_since w w' = ev_shutdown clt_sock :: ev_close clt_sock :: evs ∧
    socket_ops evs = [].
Proof.
  intros Hc Hi Hi'. run_method. rewrite bool_decide_eq_true_2 by done.
  rewrite Hi. simpl. rewrite Hi'. simpl.
  repeat (case_match; simplify_eq/=); since; eauto.
Qed.

(** X7.  Closing the link that [_on_accept] has just registered puts the
    link table back as it was before the accept: the two maps and the
    polled set are those of the start, only the counter has moved on, and
    the socket has been closed. *)
Theorem accept_then_close_restores_table :
  ∀ Message env env' server_sock w msg d v,
    well_formed w →
    accept_raises env server_sock = false →
    Message "herald/tunnel/create_link"
      (create_link_content (self w) (__next_id (self w))) = Return msg →
    send_reply env (__peer (self w)) msg = Some (PDict d) →
    d !! "success" = Some v → truthy v = true →
    let w1 := (_on_accept Message env server_sock w).2 in
    let w2 := (_on_close Message env' (objects w) w1).2 in
    __link_sock (self w2) = __link_sock (self w) ∧
    __sock_link (self w2) = __sock_link (self w) ∧
    __clients_socks (self w2) = __clients_socks (self w) ∧
    __next_id (self w2) = __next_id (self w) + 1 ∧
    ev_close (objects w) ∈ events_since w1 w2.
Proof.
  intros Message env env' server_sock w msg d v Hw Ha Hm Hr Hv Ht w1 w2.
  pose proof (accepted_link_is_registered Message env server_sock w msg d v
                Ha Hm Hr Hv Ht) as H1.
  simpl in H1. fold w1 in H1.
  assert (H1' : self w1 =
                registered (__next_id (self w)) (objects w)
                  (set_next_id (__next_id (self w) + 1) (self w)) ∧
                lookupById (self w1) (__next_id (self w)) = Some (objects w) ∧
                lookupByConnection (self w1) (objects w) =
                  Some (__next_id (self w)) ∧
                objects w ∈ __clients_socks (self w1)).
  { subst w1. destruct (_on_accept Message env server_sock w) as [r w'].
    simpl. naive_solver. }
  destruct H1' as (Hs1 & Hid & Hco & Hin).
  destruct (_on_close_registered Message env' (objects w)
              (__next_id (self w)) w1 Hin Hco Hid) as (Hs2 & _ & evs & Hev & _).
  fold w2 in Hs2, Hev. rewrite Hs2, Hs1, Hev.
  destruct Hw as ((Hinv & Hcl) & Hn0 & Hids & Hobj).
  unfold lookupById, lookupByConnection in *.
  destruct (self w) as [pe tu ss C n ls sl ru]; simpl in *.
  assert (Hfresh_id : ls !! n = None).
  { destruct (ls !! n) as [c|] eqn:Hn; [|done].
    specialize (Hids n c Hn). lia. }
  assert (Hnew : objects w ∉ C).
  { intros Hc%Hobj. lia. }
  assert (Hfresh : sl !! objects w = None).
  { destruct (sl !! objects w) as [i|] eqn:Hc; [|done].
    destruct Hnew. apply Hcl. eauto. }
  rewrite !delete_insert_id by done.
  repeat split; [set_solver|set_solver].
Qed.

Lemma accept_then_close_restores_table_witness :
  let w1 := (_on_accept Message_expected env_ok 0%nat three_links).2 in
  let w2 := (_on_close Message_expected env_ok 4%nat w1).2 in
  __link_sock (self w2) = __link_sock (self three_links) ∧
  __clients_socks (self w2) = __clients_socks (self three_links).
Proof.
  pose proof (accept_then_close_restores_table Message_expected env_ok env_ok
                0%nat three_links _ (<["success" := PBool true]> ∅)
                (PBool true) well_formed_three_links eq_refl eq_refl eq_refl
                (lookup_insert_eq _ _ _) eq_refl) as H.
  cbv zeta in H. cbv zeta. by destruct H as (? & _ & ? & _).
Defined.

(** ** [close] with open links *)

Lemma bind_Return {A B} (m : M A) (f : A → M B) w b w' :
  bind m f w = (Return b, w') →
  ∃ a w1, m w = (Return a, w1) ∧ f a w1 = (Return b, w').
Proof.
  unfold bind. destruct (m w) as [[a|e] w1]; [eauto|done].
Qed.

Lemma well_formed_same_table w w' :
  same_table (self w) (self w') → objects w' = objects w →
  well_formed w → well_formed w'.
Proof.
  intros (Hc & Hn & Hl & Hs) Ho Hw.
  unfold well_formed, allocated, LinkTable_inv, lookupByConnection,
    lookupById in *.
  by rewrite Hc, Hn, Hl, Hs, Ho.
Qed.

(** The trace of [_on_close] on a polled socket of a well-formed session
    has the close of that socket. *)
Lemma _on_close_trace Message env clt_sock w :
  well_formed w →
  ∃ evs,
    trace (_on_close Message env clt_sock w).2 = trace w ++ evs ∧
    (clt_sock ∈ __clients_socks (self w) → ev_close clt_sock ∈ evs).
Proof.
  intros [[Hinv Hcl] _].
  destruct (decide (clt_sock ∈ __clients_socks (self w))) as [Hin|Hin].
  - pose proof Hin as [i Hi]%Hcl. pose proof Hi as Hi'%Hinv.
    destruct (_on_close_registered Message env clt_sock i w Hin Hi Hi')
      as (_ & _ & evs & Hev & _).
    exists (ev_shutdown clt_sock :: ev_close clt_sock :: evs).
    split; [|set_solver]. rewrite <- Hev. clear Hev.
    unfold lookupByConnection, lookupById in *.
    run_method. rewrite bool_decide_eq_true_2 by done.
    rewrite Hi. simpl. rewrite Hi'. simpl.
    repeat (case_match; simplify_eq/=); since; by rewrite <- ?app_assoc.
  - exists []. rewrite _on_close_unknown, app_nil_r by done. done.
Qed.

(** The loop of [close] over the polled sockets. *)
Lemma close_loop Message env l w :
  well_formed w →
  let '(r, w') := for_each l (_on_close Message env) w in
  well_formed w' ∧
  __running (self w') = __running (self w) ∧
  __server_socks (self w') = __server_socks (self w) ∧
  ∃ evs,
    trace w' = trace w ++ evs ∧
    (r = Return tt →
     __clients_socks (self w') = __clients_socks (self w) ∖ list_to_set l ∧
     ∀ c, c ∈ l → c ∈ __clients_socks (self w) → ev_close c ∈ evs).
Proof.
  revert w. induction l as [|x l IH]; intros w Hw; simpl.
  - split; [done|]. split; [done|]. split; [done|].
    exists []. rewrite app_nil_r.
    split; [done|]. intros _. split; [set_solver|].
    intros c Hc. by apply elem_of_nil in Hc.
  - unfold bind.
    pose proof (well_formed__on_close Message env x w Hw) as Hw1.
    pose proof (_on_close_clients Message env x w Hw) as Hc1.
    destruct (_on_close_frame Message env x w) as (Hr1 & Hs1 & _).
    destruct (_on_close_trace Message env x w Hw) as (evs1 & Ht1 & Hx).
    simpl in Hc1, Hr1, Hs1.
    destruct (_on_close Message env x w) as [[[]|e] w1]; simpl in *.
    + specialize (IH w1 Hw1).
      destruct (for_each l (_on_close Message env) w1) as [r w'].
      destruct IH as (Hw' & Hr' & Hs' & evs2 & Ht2 & IH).
      split; [done|]. split; [congruence|]. split; [congruence|].
      exists (evs1 ++ evs2). rewrite Ht2, Ht1, app_assoc.
      split; [done|]. intros Hret. destruct (IH Hret) as [Hc' Hev].
      split; [rewrite Hc', Hc1; set_solver|].
      intros c Hc Hin. rewrite elem_of_app.
      destruct (decide (c = x)) as [->|Hne]; [left; by apply Hx|].
      right. apply Hev; [set_solver|]. rewrite Hc1. set_solver.
    + split; [done|]. split; [done|]. split; [done|].
      exists evs1. by split.
Qed.

(** X8.  When [close] returns on a well-formed session, every server
    socket and every polled client socket has been closed, the link table
    is empty, and the session holds nothing any more. *)
Theorem close_closes_every_socket :
  ∀ Message env send_close w w',
    well_formed w →
    close Message env send_close w = (Return tt, w') →
    (∀ s, s ∈ __server_socks (self w) → ev_close s ∈ events_since w w') ∧
    (∀ c, c ∈ __clients_socks (self w) → ev_close c ∈ events_since w w') ∧
    __link_sock (self w') = ∅ ∧ __sock_link (self w') = ∅ ∧
    closed (self w').
Proof.
  intros Message env send_close w w' Hw Hclose.
  pose proof (close_returns Message env send_close w I) as Hclosed.
  rewrite Hclose in Hclosed.
  unfold close in Hclose.
  apply bind_Return in Hclose as ([] & wa & Ha & Hclose).
  apply bind_Return in Hclose as ([] & wb & Hb & Hclose).
  apply bind_Return in Hclose as ([] & wc & Hc & Hclose).
  apply bind_Return in Hclose as ([] & wd & Hd & Hclose).
  injection Ha as <-.
  unfold close_server_sockets, bind, get, modify in Hb. simpl in Hb.
  rewrite for_each_shutdown_finally_close in Hb. simpl in Hb.
  injection Hb as <-.
  unfold close_client_sockets in Hc.
  unfold bind at 1 in Hc. simpl in Hc.
  apply bind_Return in Hc as ([] & wc0 & Hloop & Hc).
  injection Hc as <-.
  match type of Hloop with for_each ?l _ ?u = _ =>
    pose proof (close_loop Message env l u) as Hl end.
  rewrite Hloop in Hl.
  destruct Hl as (Hw0 & _ & _ & evs & Ht & Hl).
  { eapply well_formed_same_table; [| |exact Hw]; [|done].
    by destruct (self w). }
  destruct (Hl eq_refl) as [Hcl Hev]. clear Hl.
  simpl in Ht, Hcl, Hev.
  assert (Htd : ∃ evs', trace wd = (trace wc0 ++ evs') ∧ self wd =
                  set_clients_socks ∅ (self wc0)).
  { revert Hd. unfold send_close_message, new_Message, herald_fire, bind,
      get, emit, ret, raise. simpl.
    repeat (case_match; simplify_eq/=); intros; simplify_eq/=;
      eexists; (split; [|done]); rewrite <- ?app_assoc;
      try reflexivity; by rewrite app_nil_r. }
  destruct Htd as (evs' & Htd & Hsd).
  assert (Ht' : trace w' = trace wd ∧
                __link_sock (self w') = __link_sock (self wc0) ∧
                __sock_link (self w') = __sock_link (self wc0)).
  { revert Hclose. unfold bind, modify. simpl. intros [= <-]. simpl.
    rewrite Hsd. by destruct (self wc0). }
  destruct Ht' as (Ht' & Hls & Hsl).
  assert (Hsince : events_since w w' =
                   closing (__server_socks (self w)) ++ evs ++ evs').
  { unfold events_since. rewrite Ht', Htd, Ht.
    rewrite <- !app_assoc. apply events_since_app. }
  assert (Hempty : __clients_socks (self wc0) = ∅).
  { rewrite Hcl. destruct (self w); simpl. set_solver. }
  destruct Hw0 as [[Hinv Hpoll] _].
  unfold lookupByConnection, lookupById in *.
  assert (Hsl0 : __sock_link (self wc0) = ∅).
  { apply map_eq. intros c. rewrite lookup_empty.
    destruct (__sock_link (self wc0) !! c) as [i|] eqn:Hi; [|done].
    assert (c ∈ __clients_socks (self wc0)) as Hin by (apply Hpoll; eauto).
    rewrite Hempty in Hin. set_solver. }
  split; [|split; [|split; [|split]]]; try done.
  - intros s Hs. rewrite Hsince, elem_of_app. left.
    unfold closing. apply list_elem_of_In, in_flat_map.
    exists s. split; [by apply list_elem_of_In|]. simpl. auto.
  - intros c Hc. rewrite Hsince, !elem_of_app. right. left.
    apply Hev; [|by destruct (self w)].
    destruct (self w); simpl in *. set_solver.
  - rewrite Hls. apply map_eq. intros i. rewrite lookup_empty.
    destruct (__link_sock (self wc0) !! i) as [c|] eqn:Hi; [|done].
    apply Hinv in Hi. rewrite Hsl0 in Hi. by rewrite lookup_empty in Hi.
  - by rewrite Hsl.
Qed.

Lemma well_formed_linked : well_formed linked.
Proof.
  unfold well_formed, allocated, LinkTable_inv, lookupByConnection,
    lookupById. simpl.
  split; [split|split; [done|split]]; intros *; rewrite ?lookup_empty;
    try done; try set_solver.
Qed.

Lemma close_closes_every_socket_witness :
  let w' := (close Message_expected env_ok false linked).2 in
  ev_close 0%nat ∈ events_since linked w' ∧ closed (self w').
Proof.
  assert (Hr : close Message_expected env_ok false linked =
               (Return tt, (close Message_expected env_ok false linked).2)).
  { by rewrite close_no_clients. }
  destruct (close_closes_every_socket Message_expected env_ok false
              linked _ well_formed_linked Hr)
    as (Hs & _ & _ & _ & Hc).
  cbv zeta. split; [apply Hs; simpl; set_solver|done].
Defined.

(** ** The read loop *)

Lemma hoare_try_except_else {A B} (P E' E : World → Prop)
    (Q : A → World → Prop) (R : B → World → Prop)
    (body : M A) (handler : exn → option (M B)) (orelse : A → M B) :
  hoare P body Q E' →
  (∀ e h, handler e = Some h → hoare E' h R E) →
  (∀ w, E' w → E w) →
  (∀ a, hoare (Q a) (orelse a) R E) →
  hoare P (try_except_else body handler orelse) R E.
Proof.
  intros Hb Hh HE Ho w Hw. unfold try_except_else. specialize (Hb w Hw).
  destruct (body w) as [[a|e] w']; [by apply Ho|].
  destruct (handler e) as [h|] eqn:He; [by apply (Hh e h He)|by apply HE].
Qed.

Section Every.
Variable Message : string → dict → result beans.Message.
Variable env : Env.

(** A property kept by every step but the relaying of a chunk. *)
Variable P : World → Prop.
Hypothesis P_emit : ∀ e, data_request e = None → keeps P (emit e).
Hypothesis P_new_object : keeps P new_object.
Hypothesis P_modify :
  ∀ f, (∀ t, __running t = false → __running (f t) = false) →
       keeps P (modify f).
Hypothesis P_on_recv :
  ∀ clt_sock data, (0 < length data ≤ BUFFER_SIZE)%nat →
                   keeps P (_on_recv Message env clt_sock data).

Ltac leaf :=
  lazymatch goal with
  | |- keeps _ (emit _) => by apply P_emit
  | |- keeps _ new_object => apply P_new_object
  | |- keeps _ (modify _) => by apply P_modify; intros []
  | |- keeps _ (if ?b then _ else _) => destruct b eqn:?
  | |- _ => keeps_step
  end.

Lemma every_shutdown_finally_close s : keeps P (shutdown_finally_close env s).
Proof.
  unfold shutdown_finally_close, sock_shutdown, sock_close. repeat leaf.
Qed.

Lemma every__on_close clt_sock : keeps P (_on_close Message env clt_sock).
Proof.
  unfold _on_close, unregister, new_Message, herald_fire, logger_error.
  repeat leaf; apply every_shutdown_finally_close.
Qed.

Lemma every__on_accept server_sock :
  keeps P (_on_accept Message env server_sock).
Proof.
  unfold _on_accept, sock_accept, allocate, new_Message, create_link,
    register, herald_send, shutdown_else_close, sock_shutdown, sock_close,
    logger_error.
  repeat leaf; apply every_shutdown_finally_close.
Qed.

Lemma every_setup address port type : keeps P (setup env address port type).
Proof.
  unfold setup, setup_candidate, create_and_bind, logger_error. repeat leaf.
Qed.

Lemma every_link tunnel_uid out_peer : keeps P (link tunnel_uid out_peer).
Proof. unfold link. repeat leaf. Qed.

Lemma every_send link_id data : keeps P (send env link_id data).
Proof. unfold send, sock_send, logger_error. repeat leaf. Qed.

Lemma every_close send_close : keeps P (close Message env send_close).
Proof.
  unfold close, close_server_sockets, close_client_sockets,
    send_close_message, new_Message, herald_fire.
  repeat leaf; auto using every_shutdown_finally_close, every__on_close.
Qed.

(** One read gives at most [BUFFER_SIZE] bytes. *)
Lemma every_sock_recv s :
  hoare P (sock_recv env s BUFFER_SIZE)
    (λ data w, P w ∧ (length data ≤ BUFFER_SIZE)%nat) P.
Proof.
  unfold sock_recv. eapply hoare_bind; [by apply P_emit|]. intros ?.
  destruct (recv_data env s) as [data|].
  - apply hoare_ret. intros w Hw. split; [done|].
    rewrite length_take. lia.
  - by apply hoare_raise.
Qed.

Lemma every_dispatch in_sock : keeps P (dispatch Message env in_sock).
Proof.
  unfold dispatch. apply keeps_bind; [apply keeps_get|]. intros t.
  destruct (bool_decide _); [apply every__on_accept|].
  eapply hoare_try_except_else.
  - apply every_sock_recv.
  - intros e h ->%except_IOError_Some. unfold logger_error.
    apply keeps_bind; [by apply P_emit|]. intros _. apply every__on_close.
  - done.
  - intros [|b data].
    + eapply hoare_conseq; [apply every__on_close| |done|done].
      by intros w [Hw _].
    + intros w [Hw Hlen]. apply P_on_recv; [|done]. simpl in *. lia.
Qed.

Lemma every_read_once : keeps P (read_once Message env).
Proof.
  unfold read_once. repeat leaf. apply every_dispatch.
Qed.
End Every.

Lemma relays_chunks_emit tr e :
  match data_request e with Some r => chunk_ok r | None => True end →
  keeps (relays_chunks tr) (emit e).
Proof.
  intros He w (evs & Ht & Hf). exists (evs ++ [e]). simpl.
  rewrite Ht, <- app_assoc. split; [done|].
  rewrite omap_app. apply Forall_app. split; [done|]. simpl.
  destruct (data_request e); [by repeat constructor|constructor].
Qed.

Lemma relays_chunks__on_recv tr Message env clt_sock data :
  (0 < length data ≤ BUFFER_SIZE)%nat →
  keeps (relays_chunks tr) (_on_recv Message env clt_sock data).
Proof.
  intros Hlen.
  unfold _on_recv, new_Message, herald_fire, logger_warning, logger_error.
  repeat first
    [ apply relays_chunks_emit; simpl;
      first [ done
            | unfold payload_text;
              rewrite lookup_insert_ne, lookup_insert_ne, lookup_insert_eq
                by done;
              simpl; rewrite payload_roundtrip; by exists data ]
    | match goal with |- keeps _ (if ?b then _ else _) => destruct b end
    | keeps_step ].
Qed.

(** X9.  Whatever sockets are ready and whatever they give, the chunks
    that one call of [read_once] asks to relay are never empty and never
    longer than [BUFFER_SIZE]: an empty read goes to [_on_close], and a
    read is cut at the size of the buffer. *)
Theorem read_once_relays_bounded_chunks :
  ∀ Message env w,
    Forall chunk_ok
      (omap data_request (events_since w (read_once Message env w).2)).
Proof.
  intros Message env w.
  assert (Hk : keeps (relays_chunks (trace w)) (read_once Message env)).
  { apply every_read_once.
    - intros e He. apply relays_chunks_emit. by rewrite He.
    - by intros w' Hw'.
    - by intros f _ w' Hw'.
    - intros. by apply relays_chunks__on_recv. }
  destruct (keeps_after _ _ w Hk) as (evs & Ht & Hf).
  { exists []. by rewrite app_nil_r. }
  unfold events_since. by rewrite Ht, events_since_app.
Qed.

(** X10.  [close] clears the running flag even when it raises, no later
    call sets it again, and [read_loop] on a session whose flag is cleared
    returns at once: after a call of [close], whatever calls follow,
    [read_loop] does not poll. *)
Theorem read_loop_stops_after_close :
  ∀ Message env send_close calls envs w,
    let w1 := run Message calls (close Message env send_close w).2 in
    __running (self w1) = false ∧
    read_loop Message envs w1 = (Return true, w1).
Proof.
  intros Message env send_close calls envs w w1.
  set (stopped := λ w' : World, __running (self w') = false).
  assert (He : ∀ e, keeps stopped (emit e)) by (by intros e w' Hw').
  assert (Hn : keeps stopped new_object) by (by intros w' Hw').
  assert (Hm : ∀ f, (∀ t, __running t = false → __running (f t) = false) →
                    keeps stopped (modify f)).
  { intros f Hf w' Hw'. by apply Hf. }
  assert (Hr : ∀ env' clt_sock data,
             keeps stopped (_on_recv Message env' clt_sock data)).
  { intros. unfold _on_recv, new_Message, herald_fire, logger_warning,
      logger_error.
    repeat first
      [ apply He
      | match goal with |- keeps _ (if ?b then _ else _) => destruct b end
      | keeps_step ]. }
  assert (Hstop : stopped (close Message env send_close w).2).
  { assert (Heq : close Message env send_close w =
                  close Message env send_close
                    (modify (set_running false) w).2).
    { unfold close, bind, modify. simpl. by destruct (self w). }
    rewrite Heq. apply keeps_after; [apply every_close; auto|].
    by destruct w as [[] ? ?]. }
  assert (H1 : stopped w1).
  { subst w1. apply keeps_run; [|done]. intros env' c.
    destruct c; simpl.
    - apply keeps_bind; [apply every_setup; auto|intros; apply keeps_ret].
    - apply every_link; auto.
    - apply every_close; auto.
    - apply every_send; auto.
    - apply every_read_once; auto.
    - apply every__on_accept; auto.
    - apply every__on_close; auto.
    - apply Hr. }
  split; [done|].
  destruct envs; simpl; unfold bind, get; simpl; by rewrite H1.
Qed.

Import beans_Peer.

(** * The beans of the peers and the core directory *)

(** ** [Peer]: names *)

Lemma or_else_not_empty :
  ∀ x y, y ≠ EmptyString → or_else x y ≠ EmptyString.
Proof.
  intros [s|] y Hy; simpl; [|done].
  destruct (String.eqb s EmptyString) eqn:E; [done|].
  by apply String.eqb_neq in E.
Qed.

Lemma apply_names :
  ∀ Access access_ne is_RawAccess called_back (p : Peer Access) op,
    let p' := apply access_ne is_RawAccess called_back p op in
    __uid p' = __uid p ∧ __node p' = __node p ∧
    (__uid p ≠ EmptyString → __name p ≠ EmptyString →
     __name p' ≠ EmptyString) ∧
    (__node p ≠ EmptyString → __node_name p ≠ EmptyString →
     __node_name p' ≠ EmptyString).
Proof.
  intros Access access_ne is_RawAccess called_back p op.
  destruct op as [value|value|access_id data|access_id]; simpl.
  - repeat split; auto using or_else_not_empty.
  - repeat split; auto using or_else_not_empty.
  - unfold set_access, __callback.
    repeat case_match; simplify_eq; simpl; repeat split; auto.
  - unfold unset_access, __callback.
    repeat case_match; simplify_eq; simpl; repeat split; auto.
Qed.

(** X11.  A bean that [Peer.__init__] has made keeps its uid and its
    node uid, and none of its uid, name, node uid and node name is ever
    empty, whatever is assigned to its name and node name and whatever
    accesses are set and unset. *)
Theorem peer_names_are_never_empty :
  ∀ Access access_ne is_RawAccess called_back
    uid node_uid app_id groups directory (p : Peer Access) ops,
    __init__ uid node_uid app_id groups directory = Ok p →
    let p' := fold_left (apply access_ne is_RawAccess called_back) ops p in
    uid = Some (__uid p') ∧ __node p' = or_else node_uid (__uid p') ∧
    __uid p' ≠ EmptyString ∧ __name p' ≠ EmptyString ∧
    __node p' ≠ EmptyString ∧ __node_name p' ≠ EmptyString.
Proof.
  intros Access access_ne is_RawAccess called_back
    uid node_uid app_id groups directory p ops Hinit.
  assert (Hp : uid = Some (__uid p) ∧ __node p = or_else node_uid (__uid p) ∧
               __uid p ≠ EmptyString ∧ __name p ≠ EmptyString ∧
               __node p ≠ EmptyString ∧ __node_name p ≠ EmptyString).
  { unfold __init__ in Hinit.
    destruct uid as [s|]; simpl in Hinit; [|done].
    destruct (String.eqb s EmptyString) eqn:E; [done|].
    apply String.eqb_neq in E. simplify_eq. simpl.
    repeat split; auto using or_else_not_empty. }
  clear Hinit. revert p Hp.
  induction ops as [|op ops IH]; intros p Hp; [done|].
  simpl. apply IH.
  destruct Hp as (Hu & Hn & H1 & H2 & H3 & H4).
  destruct (apply_names Access access_ne is_RawAccess called_back p op)
    as (Eu & En & Hname & Hnode).
  rewrite Eu, En. repeat split; auto.
Qed.

Lemma peer_names_are_never_empty_witness :
  let p := fold_left
    (apply sample_ne Nat.even (λ _, None))
    [op_set_name (Some EmptyString); op_set_access "http" 3%nat;
     op_set_node_name None]
    (sample_peer ∅ []) in
  __name p ≠ EmptyString ∧ __node_name p ≠ EmptyString.
Proof.
  pose proof (peer_names_are_never_empty nat
    sample_ne Nat.even (λ _, None)
    (Some "peer-1") None None None [] _
    [op_set_name (Some EmptyString); op_set_access "http" 3%nat;
     op_set_node_name None] eq_refl) as H.
  cbv zeta in *. by destruct H as (_ & _ & _ & ? & _ & ?).
Defined.

(** ** [Peer]: the table of accesses *)

(** X12.  After [set_access(access_id, data)], for a description that
    differs from [None], the access is described: [get_access] gives
    [data], or the description that was there before when [data] does not
    differ from it.  The other accesses are as before.  This holds also
    when the directory raises in its callback. *)
Theorem set_access_then_get_access :
  ∀ Access access_ne is_RawAccess called_back (p : Peer Access)
    access_id data,
    access_ne data None = true →
    let p' := (set_access access_ne is_RawAccess called_back p
                 access_id data).1.2 in
    has_access p' access_id = true ∧
    (∃ d, get_access p' access_id = Ok d ∧
          (d = data ∨
           (get_access p access_id = Ok d ∧
            access_ne data (Some d) = false))) ∧
    (∀ other, other ≠ access_id →
       get_access p' other = get_access p other).
Proof.
  intros Access access_ne is_RawAccess called_back p access_id data Hne.
  unfold set_access, get_access, has_access.
  destruct (access_ne data (__accesses p !! access_id)) eqn:E.
  - assert (Hp : ∀ r c, (let '(r, calls) := (r, c) : outcome unit * list (callback Access) in
             (r, with_accesses (<[access_id:=data]> (__accesses p)) p, calls)).1.2
            = with_accesses (<[access_id:=data]> (__accesses p)) p) by done.
    assert (Hp' : (if negb (is_RawAccess data)
       then let '(r, calls) := __callback called_back
              (with_accesses (<[access_id:=data]> (__accesses p)) p)
              "peer_access_set" access_id data in
            (r, with_accesses (<[access_id:=data]> (__accesses p)) p, calls)
       else (Ok (), with_accesses (<[access_id:=data]> (__accesses p)) p,
             [])).1.2
       = with_accesses (<[access_id:=data]> (__accesses p)) p).
    { destruct (is_RawAccess data); simpl; [done|].
      by destruct (__callback _ _ _ _ _). }
    rewrite Hp'. simpl. rewrite lookup_insert_eq.
    split; [by apply bool_decide_eq_true|].
    split; [by eauto|].
    intros other Ho. by rewrite lookup_insert_ne.
  - simpl. destruct (__accesses p !! access_id) as [d|] eqn:El;
      [|congruence].
    split; [by apply bool_decide_eq_true|].
    split; [|done]. exists d. by auto.
Qed.

Lemma set_access_then_get_access_witness :
  get_access
    (set_access sample_ne Nat.even
       (λ _, Some KeyError)
       (sample_peer {["http" := 2%nat]} ["peer_access_set"]) "xmpp" 5%nat).1.2
    "http" = Ok 2%nat.
Proof.
  pose proof (set_access_then_get_access nat
    sample_ne Nat.even (λ _, Some KeyError)
    (sample_peer {["http" := 2%nat]} ["peer_access_set"]) "xmpp" 5%nat eq_refl) as H.
  cbv zeta in H. destruct H as (_ & _ & H).
  by rewrite (H "http").
Defined.

Lemma set_access_peer :
  ∀ Access access_ne is_RawAccess called_back (p : Peer Access)
    access_id data,
    (set_access access_ne is_RawAccess called_back p access_id data).1.2 =
    if access_ne data (__accesses p !! access_id)
    then with_accesses (<[access_id := data]> (__accesses p)) p
    else p.
Proof.
  intros. unfold set_access.
  destruct (access_ne _ _); [|done].
  destruct (is_RawAccess data); simpl; [done|].
  by destruct (__callback _ _ _ _ _).
Qed.

(** X13.  When a description does not differ from itself, setting it a
    second time does nothing: the bean is as after the first call and the
    directory is not called. *)
Theorem set_access_twice :
  ∀ Access access_ne is_RawAccess called_back (p : Peer Access)
    access_id data,
    access_ne data (Some data) = false →
    let p' := (set_access access_ne is_RawAccess called_back p
                 access_id data).1.2 in
    set_access access_ne is_RawAccess called_back p' access_id data =
    (Ok tt, p', []).
Proof.
  intros Access access_ne is_RawAccess called_back p access_id data Hrefl.
  cbv zeta. rewrite set_access_peer.
  destruct (access_ne data (__accesses p !! access_id)) eqn:E.
  - unfold set_access at 1. simpl. by rewrite lookup_insert_eq, Hrefl.
  - unfold set_access. by rewrite E.
Qed.

Lemma set_access_twice_witness :
  let p := (sample_peer ∅ ["peer_access_set"]) in
  let set_access' :=
    set_access sample_ne Nat.even
      (λ _, None) in
  (set_access' (set_access' p "http" 3%nat).1.2 "http" 3%nat).2 = [].
Proof.
  cbv zeta.
  by rewrite (set_access_twice nat
    sample_ne Nat.even (λ _, None)
    _ "http" 3%nat eq_refl).
Defined.

(** X14.  Setting an access that was not described and unsetting it
    leaves the bean as it was.  [unset_access] returns the description,
    unless the directory raises in its callback: the exception escapes
    and the access is removed all the same. *)
Theorem set_access_then_unset_access :
  ∀ Access access_ne is_RawAccess called_back (p : Peer Access)
    access_id data,
    has_access p access_id = false →
    access_ne data None = true →
    let p' := (set_access access_ne is_RawAccess called_back p
                 access_id data).1.2 in
    let '(r, p'', calls) := unset_access called_back p' access_id in
    p'' = p ∧
    (r = Ok (Some data) ∨
     ∃ c e, calls = [c] ∧ called_back c = Some e ∧ r = Err e).
Proof.
  intros Access access_ne is_RawAccess called_back p access_id data Hno Hne.
  apply bool_decide_eq_false in Hno.
  assert (Hl : __accesses p !! access_id = None).
  { destruct (__accesses p !! access_id) eqn:E; [|done].
    destruct Hno. by eauto. }
  cbv zeta. rewrite set_access_peer, Hl, Hne.
  destruct p as [uid name node node_name app_id groups accesses directory].
  simpl in Hl.
  unfold unset_access, with_accesses. simpl. rewrite lookup_insert_eq.
  unfold __callback. simpl.
  rewrite delete_insert_id by done.
  destruct (bool_decide _); [|by auto].
  destruct (called_back _) eqn:Ec; [|by auto].
  split; [done|]. right. by eauto.
Qed.

Lemma set_access_then_unset_access_witness :
  let p := (sample_peer {["http" := 2%nat]} ["peer_access_unset"]) in
    let p' := (set_access sample_ne Nat.even (λ _, Some KeyError) p "xmpp" 5%nat).1.2 in
  (unset_access (λ _, Some KeyError) p' "xmpp").1.2 = p.
Proof.
  pose proof (set_access_then_unset_access nat
    sample_ne Nat.even (λ _, Some KeyError)
    (sample_peer {["http" := 2%nat]} ["peer_access_unset"]) "xmpp" 5%nat
    eq_refl eq_refl) as H.
  cbv zeta in *.
  destruct (unset_access _ _ _) as [[r p''] calls]. by destruct H.
Defined.

(** X15.  The directory is told of the removal of every access, but of
    the setting only of those that are not raw: for a [RawAccess],
    [peer_access_unset] is called for an access of which
    [peer_access_set] was never called. *)
Theorem unset_access_notifies_raw_accesses :
  ∀ Access access_ne is_RawAccess called_back (p : Peer Access)
    access_id data,
    has_access p access_id = false →
    access_ne data None = true →
    "peer_access_set" ∈ __directory p →
    "peer_access_unset" ∈ __directory p →
    let '(_, p', calls_set) :=
      set_access access_ne is_RawAccess called_back p access_id data in
    let '(_, _, calls_unset) := unset_access called_back p' access_id in
    calls_set =
      (if is_RawAccess data then []
       else [{| cb_method := "peer_access_set"; cb_peer := __uid p;
                cb_access_id := access_id; cb_data := data |}]) ∧
    calls_unset =
      [{| cb_method := "peer_access_unset"; cb_peer := __uid p;
          cb_access_id := access_id; cb_data := data |}].
Proof.
  intros Access access_ne is_RawAccess called_back p access_id data
    Hno Hne Hset Hunset.
  apply bool_decide_eq_false in Hno.
  assert (Hl : __accesses p !! access_id = None).
  { destruct (__accesses p !! access_id) eqn:E; [|done].
    destruct Hno. by eauto. }
  unfold set_access. rewrite Hl, Hne.
  unfold __callback, unset_access. simpl.
  rewrite (bool_decide_eq_true_2 _ Hset).
  destruct (is_RawAccess data); simpl; rewrite lookup_insert_eq; simpl;
    unfold __callback; simpl; by rewrite (bool_decide_eq_true_2 _ Hunset).
Qed.

Lemma unset_access_notifies_raw_accesses_witness :
  let p := (sample_peer ∅ ["peer_access_set"; "peer_access_unset"]) in
    let '(_, p', calls_set) := set_access sample_ne Nat.even (λ _, None) p "raw" 4%nat in
  let '(_, _, calls_unset) := unset_access (λ _, None) p' "raw" in
  calls_set = [] ∧ length calls_unset = 1%nat.
Proof.
  pose proof (unset_access_notifies_raw_accesses nat
    sample_ne Nat.even (λ _, None)
    (sample_peer ∅ ["peer_access_set"; "peer_access_unset"])
    "raw" 4%nat eq_refl eq_refl) as H.
  cbv zeta in *.
  destruct (set_access _ _ _ _ _ _) as [[r p'] calls_set].
  destruct (unset_access _ _ _) as [[r' p''] calls_unset].
  destruct H as [-> ->]; [set_solver..|done].
Defined.

(** ** [Peer]: the order *)

(** X16.  Beans are compared by their uids: of [a < b], [a == b] and
    [b < a] exactly one holds, [a == b] holds exactly when the uids are
    the same string, and a bean is neither equal to nor less than an
    object that is not a bean. *)
Theorem peers_are_ordered_by_uid :
  ∀ Access (a b : Peer Access),
    (__eq__ a (Some b) = true ↔ __uid a = __uid b) ∧
    (__lt__ a (Some b) = true ∨ __eq__ a (Some b) = true ∨
     __lt__ b (Some a) = true) ∧
    (__lt__ a (Some b) = true → __eq__ a (Some b) = false ∧
                                __lt__ b (Some a) = false) ∧
    (__eq__ a (Some b) = true → __lt__ a (Some b) = false ∧
                                __lt__ b (Some a) = false) ∧
    __eq__ a None = false ∧ __lt__ a None = false.
Proof.
  intros Access a b. unfold __eq__, __lt__, String.ltb.
  assert (Hrefl : ∀ s, String.compare s s = Eq).
  { intros s. pose proof (String.compare_antisym s s) as H.
    by destruct (String.compare s s). }
  pose proof (String.compare_antisym (__uid a) (__uid b)) as Ha.
  pose proof (String.compare_eq_iff (__uid a) (__uid b)) as He.
  rewrite String.eqb_eq.
  destruct (String.eqb (__uid a) (__uid b)) eqn:Eb.
  - apply String.eqb_eq in Eb. rewrite Eb, Hrefl. by auto 10.
  - apply String.eqb_neq in Eb.
    destruct (String.compare (__uid a) (__uid b)) eqn:E1;
      destruct (String.compare (__uid b) (__uid a)) eqn:E2;
      simpl in Ha; try discriminate Ha;
      try (exfalso; by auto);
      repeat split; auto; try done; try (intros; done).
Qed.

(** ** The core directory *)

Lemma set_properties_raises :
  ∀ Access (peer : Peer Access) d,
    directory.set_properties peer d = Err KeyError ∨
    directory.set_properties peer d = Err (AttributeError "node_uid").
Proof.
  intros Access peer d. unfold directory.set_properties.
  destruct (directory.d_name d); [|by left]. simpl.
  destruct (directory.d_node_uid d); [by right|by left].
Qed.

Lemma register_state :
  ∀ Access access_ne is_RawAccess new_Peer
    (self : directory.HeraldDirectory Access) d,
    ∃ r, directory.register access_ne is_RawAccess new_Peer self d =
         (r, self, []).
Proof.
  intros Access access_ne is_RawAccess new_Peer self d.
  unfold directory.register.
  destruct (directory.d_uid d) as [uid|]; [|by eauto].
  destruct (_ || _); [by eauto|].
  destruct (new_Peer (Some uid)) as [peer|e]; [|by eauto].
  destruct (set_properties_raises Access peer d) as [-> | ->]; by eauto.
Qed.

Lemma register_returns :
  ∀ Access access_ne is_RawAccess new_Peer
    (self : directory.HeraldDirectory Access) d,
    (directory.register access_ne is_RawAccess new_Peer self d).1.1 = Ok tt →
    ∃ uid, directory.d_uid d = Some uid ∧
           (Some uid = directory._local_uid self ∨
            is_Some (directory._peers self !! uid)).
Proof.
  intros Access access_ne is_RawAccess new_Peer self d.
  unfold directory.register.
  destruct (directory.d_uid d) as [uid|]; [|done].
  destruct (bool_decide (Some uid = directory._local_uid self)) eqn:E1.
  { apply bool_decide_eq_true in E1. by eauto. }
  destruct (bool_decide (is_Some (directory._peers self !! uid))) eqn:E2.
  { apply bool_decide_eq_true in E2. by eauto. }
  simpl. destruct (new_Peer (Some uid)) as [peer|e]; [|done].
  by destruct (set_properties_raises Access peer d) as [-> | ->].
Qed.

(** X17.  [register] never adds a peer, whatever the call of
    [beans.Peer] in it gives: it returns without effect for the local uid
    and for a known uid, and raises otherwise, at the latest when it
    assigns to [node_uid], before it reads the accesses. *)
Theorem register_never_stores_a_peer :
  ∀ Access access_ne is_RawAccess new_Peer
    (self : directory.HeraldDirectory Access) d,
    let '(r, self', events) :=
      directory.register access_ne is_RawAccess new_Peer self d in
    self' = self ∧ events = [] ∧
    (r = Ok tt →
     ∃ uid, directory.d_uid d = Some uid ∧
            (Some uid = directory._local_uid self ∨
             is_Some (directory._peers self !! uid))).
Proof.
  intros Access access_ne is_RawAccess new_Peer self d.
  pose proof (register_returns Access access_ne is_RawAccess new_Peer self d)
    as Hr.
  destruct (register_state Access access_ne is_RawAccess new_Peer self d)
    as [r E].
  rewrite E in Hr |- *. by auto.
Qed.

(** X18.  [load] never adds a peer either: it raises at the first item of
    the dump that is neither known nor local, and returns only when there
    is none. *)
Theorem load_never_stores_a_peer :
  ∀ Access access_ne is_RawAccess new_Peer
    (self : directory.HeraldDirectory Access) dump,
    let '(r, self', events) :=
      directory.load access_ne is_RawAccess new_Peer self dump in
    self' = self ∧ events = [] ∧
    (r = Ok tt →
     Forall (λ item,
       is_Some (directory._peers self !! item.1) ∨
       ∃ uid, directory.d_uid item.2 = Some uid ∧
              (Some uid = directory._local_uid self ∨
               is_Some (directory._peers self !! uid))) dump).
Proof.
  intros Access access_ne is_RawAccess new_Peer self dump.
  induction dump as [|[uid d] rest IH]; simpl; [done|].
  destruct (bool_decide (is_Some (directory._peers self !! uid))) eqn:E.
  { apply bool_decide_eq_true in E.
    destruct (directory.load _ _ _ _ rest) as [[r self'] events].
    destruct IH as (-> & -> & IH). repeat split; [].
    intros Hr. constructor; [by left|by auto]. }
  pose proof (register_returns Access access_ne is_RawAccess new_Peer self d)
    as Hreg.
  destruct (register_state Access access_ne is_RawAccess new_Peer self d)
    as [r1 E1].
  rewrite E1 in Hreg |- *. simpl in Hreg.
  destruct r1 as [[]|e]; [|done].
  destruct (directory.load _ _ _ _ rest) as [[r self'] events].
  destruct IH as (-> & -> & IH). repeat split; [].
  intros Hr. constructor; [right; by auto|by auto].
Qed.

Lemma load_state :
  ∀ Access access_ne is_RawAccess new_Peer
    (self : directory.HeraldDirectory Access) dump,
    (directory.load access_ne is_RawAccess new_Peer self dump).1.2 = self.
Proof.
  intros Access access_ne is_RawAccess new_Peer self dump.
  induction dump as [|[uid d] rest IH]; simpl; [done|].
  destruct (bool_decide _); [done|].
  destruct (register_state Access access_ne is_RawAccess new_Peer self d)
    as [r ->].
  destruct r as [[]|e]; [|done].
  by destruct (directory.load _ _ _ _ rest) as [[r self'] events].
Qed.

Lemma dstep_no_peers :
  ∀ Access access_ne is_RawAccess new_Peer
    (self : directory.HeraldDirectory Access) c,
    directory._peers self = ∅ →
    directory._peers
      (directory.dstep access_ne is_RawAccess new_Peer self c) = ∅.
Proof.
  intros Access access_ne is_RawAccess new_Peer self c Hself.
  destruct c; simpl.
  - unfold directory._validate.
    destruct (new_Peer _); [|done].
    by destruct (setattr_node_uid _ _).
  - done.
  - by destruct (register_state Access access_ne is_RawAccess new_Peer self d)
      as [r ->].
  - by rewrite load_state.
  - rewrite Hself. by apply delete_empty.
Qed.

Lemma druns_no_peers :
  ∀ Access access_ne is_RawAccess new_Peer calls
    (self : directory.HeraldDirectory Access),
    directory._peers self = ∅ →
    directory._peers
      (directory.druns access_ne is_RawAccess new_Peer self calls) = ∅.
Proof.
  intros Access access_ne is_RawAccess new_Peer calls.
  induction calls as [|c calls IH]; intros self Hself; [done|].
  simpl. apply IH. by apply dstep_no_peers.
Qed.

(** X19.  A directory never knows a peer: after any sequence of calls of
    [_validate], [_invalidate], [register], [load] and [unregister] on a
    new directory, and whatever the call of [beans.Peer] gives,
    [get_peers] is empty, [get_peer] raises [KeyError] for every uid and
    [unregister] returns [None]. *)
Theorem directory_never_knows_a_peer :
  ∀ Access access_ne is_RawAccess new_Peer directories calls,
    let self :=
      directory.druns (Access := Access) access_ne is_RawAccess new_Peer
        (directory.HeraldDirectory__init__ directories) calls in
    directory.get_peers self = [] ∧
    ∀ uid, directory.get_peer self uid = Err KeyError ∧
           (directory.unregister self uid).1 = None.
Proof.
  intros Access access_ne is_RawAccess new_Peer directories calls self.
  assert (H : directory._peers self = ∅) by by apply druns_no_peers.
  unfold directory.get_peers, directory.get_peer, directory.unregister.
  rewrite H, map_to_list_empty. simpl. split; [done|].
  intros uid. by rewrite lookup_empty.
Qed.

(** X20.  [_validate] always raises, after it has cleared the directory
    and set the local uid: when the call of [beans.Peer] returns a bean,
    the assignment to its [node_uid] raises [AttributeError], with the
    bean stored as local peer under its new name. *)
Theorem _validate_always_raises :
  ∀ Access new_Peer (self : directory.HeraldDirectory Access)
    peer_uid framework_uid peer_name node_uid node_name,
    let '(r, self') :=
      directory._validate new_Peer self peer_uid framework_uid peer_name
        node_uid node_name in
    let local_uid := if falsy peer_uid then framework_uid else peer_uid in
    directory._peers self' = ∅ ∧
    directory._local_uid self' = local_uid ∧
    match new_Peer local_uid with
    | Err e => r = Err e ∧ directory._local self' = directory._local self
    | Ok peer =>
        r = Err (AttributeError "node_uid") ∧
        directory._local self' =
          Some (set_name peer
                  (if falsy peer_name then local_uid else peer_name))
    end.
Proof.
  intros Access new_Peer self peer_uid framework_uid peer_name
    node_uid node_name.
  unfold directory._validate.
  by destruct (new_Peer _).
Qed.

Lemma Peer_call_raises :
  ∀ Access uid, ∃ msg, directory.Peer_call Access uid = Err (TypeError msg).
Proof. intros. by eexists. Qed.

Lemma dstep_no_local :
  ∀ Access access_ne is_RawAccess
    (self : directory.HeraldDirectory Access) c,
    directory._local self = None →
    directory._local
      (directory.dstep access_ne is_RawAccess (directory.Peer_call Access)
         self c) = None.
Proof.
  intros Access access_ne is_RawAccess self c Hself.
  destruct c; simpl; try done.
  - by destruct (register_state Access access_ne is_RawAccess
                   (directory.Peer_call Access) self d) as [r ->].
  - by rewrite load_state.
Qed.

(** X21.  With the module as it is written, where [beans.Peer] is called
    with two arguments, the directory never has a local peer:
    [get_local_peer] returns [None] after any sequence of calls, and
    [register] raises [TypeError] for every uid other than the local
    one. *)
Theorem directory_never_has_a_local_peer :
  ∀ Access access_ne is_RawAccess directories calls,
    let self :=
      directory.druns (Access := Access) access_ne is_RawAccess
        (directory.Peer_call Access)
        (directory.HeraldDirectory__init__ directories) calls in
    directory.get_local_peer self = None ∧
    ∀ d uid,
      directory.d_uid d = Some uid →
      Some uid ≠ directory._local_uid self →
      ∃ msg,
        directory.register access_ne is_RawAccess
          (directory.Peer_call Access) self d =
        (Err (TypeError msg), self, []).
Proof.
  intros Access access_ne is_RawAccess directories calls self.
  split.
  - unfold directory.get_local_peer. subst self.
    generalize (eq_refl : directory._local
      (directory.HeraldDirectory__init__ (Access := Access) directories)
      = None).
    generalize (directory.HeraldDirectory__init__ (Access := Access)
                  directories).
    induction calls as [|c calls IH]; intros self Hself; [done|].
    simpl. apply IH. by apply dstep_no_local.
  - intros d uid Hd Hlocal.
    assert (H : directory._peers self = ∅) by by apply druns_no_peers.
    unfold directory.register. rewrite Hd, H, lookup_empty.
    rewrite (bool_decide_eq_false_2 _ Hlocal).
    rewrite bool_decide_eq_false_2 by (by intros [? ?]).
    simpl. by eexists.
Qed.
